(** * schemdraw: coordinate transforms and drawing segments

    A shallow embedding of [schemdraw/transform.py] and
    [schemdraw/segments.py].

    Conventions of the embedding.
    - Python numbers (ints and floats alike) are real numbers; rounding is
      not modelled, so equalities the float code satisfies up to rounding are
      exact here.
    - A keyword dictionary ([**kwargs], [**style]) is a finite map from
      strings to Python values.
    - A method that mutates [self] and returns [None] is a function from the
      object before to the object after.
    - A [draw] method returns the call it issues on the figure.
    - A path is a list of points; the gap marker some elements put in a
      path (a point of two NaN) has no counterpart among the reals. *)

From Stdlib Require Import Reals Lra.
From stdpp Require Import base gmap strings list.

Local Open Scope R_scope.
Local Open Scope string_scope.

(** ** Python values *)

(** The values a keyword argument or a style attribute holds; [VPair] is a
    2-tuple (the [align] of a text segment). *)
Inductive value : Type :=
| VNone
| VBool (b : bool)
| VNum (r : R)
| VStr (s : string)
| VPair (a b : value).

#[global] Instance R_eq_dec : EqDecision R := Req_dec_T.

#[global] Instance value_eq_dec : EqDecision value.
Proof. solve_decision. Defined.

#[global] Instance value_inhabited : Inhabited value := populate VNone.

(** Python truth value testing: [None], [False], zero and the empty string
    are false. *)
Definition truthy (v : value) : bool :=
  match v with
  | VNone => false
  | VBool b => b
  | VNum r => bool_decide (r <> 0)
  | VStr s => bool_decide (s <> "")
  | VPair _ _ => true
  end.

(** [d.get(k, dflt)] on a keyword dictionary. *)
Definition get (d : gmap string value) (k : string) (dflt : value) : value :=
  default dflt (d !! k).

(** [d.update(e)]: the entries of [e] replace those of [d]. *)
Definition update (d e : gmap string value) : gmap string value := e ∪ d.

(** ** Exceptions *)

(** [TypeError] is what Python's call protocol raises when a [**]-dictionary
    names a parameter that is already bound.  The other three are the error
    kinds of the specification (section 7); no source file raises them. *)
Inductive exn : Type :=
| TypeError
| InvalidTransform
| UnknownAnchor
| DegenerateGeometry.

Inductive result (A : Type) : Type :=
| Ok (a : A)
| Raise (e : exn).

Arguments Ok {A} a.
Arguments Raise {A} e.

(** The keyword dictionary [kw] leaves every name of [names] unbound. *)
Definition unbound (names : list string) (kw : gmap string value) : Prop :=
  Forall (fun k => kw !! k = None) names.

#[global] Instance unbound_dec names kw : Decision (unbound names kw).
Proof. unfold unbound. apply _. Defined.

(** A call [f(a1, .., an, k1=.., **kw)] whose parameters [names] are bound
    positionally or by explicit keywords: a key of [kw] among them is a
    [TypeError] (multiple values for the argument). *)
Definition call {A : Type} (names : list string) (kw : gmap string value)
    (body : result A) : result A :=
  if decide (unbound names kw) then body else Raise TypeError.

(** ** [schemdraw.util] *)

Module util.

(** Modelled from the spec: [util.Point] is not among the sources.  Section
    3: a pair of real-valued coordinates, an immutable value. *)
Record Point : Type := mkPoint { x : R; y : R }.

(** Modelled from the spec: section 4.1, add. *)
Definition add (p q : Point) : Point := mkPoint (x p + x q) (y p + y q).

(** Modelled from the spec: section 4.1, subtract. *)
Definition sub (p q : Point) : Point := mkPoint (x p - x q) (y p - y q).

(** Modelled from the spec: section 4.1, scalar-multiply. *)
Definition mul (p : Point) (a : R) : Point := mkPoint (x p * a) (y p * a).

(** [math.radians]. *)
Definition radians (deg : R) : R := deg * PI / 180.

(** Modelled from the spec: section 4.1, rotate(theta), the standard 2D
    rotation about the origin; the angle is in degrees (section 3). *)
Definition rotate (p : Point) (angle : R) : Point :=
  let co := cos (radians angle) in
  let so := sin (radians angle) in
  mkPoint (x p * co - y p * so) (x p * so + y p * co).

(** Modelled from the spec: section 4.1, mirror about the vertical line
    [x = centerx]: the x-offset from [centerx] is negated. *)
Definition mirrorx (p : Point) (centerx : R) : Point :=
  mkPoint (- (x p - centerx) + centerx) (y p).

(** Modelled from the spec: section 4.1, flip negates y. *)
Definition flip (p : Point) : Point := mkPoint (x p) (- y p).

(** Modelled from the spec: [util.linspace] is not among the sources.
    Section 4.3 has the arc boundary sampled across the sweep: [num]
    evenly spaced samples from [start] to [stop], both included. *)
Definition linspace (start stop : R) (num : nat) : list R :=
  let step := (stop - start) / INR (num - 1) in
  List.map (fun i => start + step * INR i) (seq 0 num).

End util.

Abbreviation Point := util.Point.

#[global] Instance Point_eq_dec : EqDecision Point.
Proof. solve_decision. Defined.

(** ** [schemdraw.transform] *)

Module Transform.

(** The attributes [__init__] sets. *)
Record t : Type := mk {
  theta : R;
  shift : Point;
  localshift : Point;
  zoom : R
}.

(** [Transform(theta, globalshift, localshift, zoom)]; the defaults of the
    last two are [(0, 0)] and [1].  The arguments are stored as given. *)
Definition __init__ (theta : R) (globalshift localshift : Point) (zoom : R)
    : result t :=
  Ok (mk theta globalshift localshift zoom).

(** The dictionary [transform] looks [ref] up in. *)
Definition lshifts (self : t) : gmap string Point :=
  {[ "start" := util.mkPoint 0 0;
     "end" := util.mul (localshift self) 2 ]}.

(** [transform(self, pt, ref=None)].  Only a string can be a key of the
    dictionary; every other [ref] gets the default. *)
Definition transform (self : t) (pt : Point) (ref : value) : Point :=
  let lshift :=
    default (localshift self)
      (match ref with VStr s => lshifts self !! s | _ => None end) in
  util.add
    (util.rotate (util.mul (util.add pt lshift) (zoom self)) (theta self))
    (shift self).

(** [transform_array(self, pts)] *)
Definition transform_array (self : t) (pts : list Point) : list Point :=
  List.map (fun pt => transform self pt VNone) pts.

End Transform.

(** ** The figure *)

Module Figure.

(** The drawing calls a segment issues on the figure ([fig.plot],
    [fig.circle], [fig.arrow], [fig.arc]), with their arguments. *)
Inductive call : Type :=
| plot (xs ys : list R)
    (color fill ls lw capstyle joinstyle zorder : value)
| circle (center : Point) (radius : R) (color fill lw ls zorder : value)
| arrow (x y dx dy : R) (headwidth headlength color lw zorder : value)
| arc (center : Point) (width height theta1 theta2 angle : R)
    (color lw ls zorder arrow : value).

(** The [fill] argument of a [plot] or [circle] call. *)
Definition fill_of (c : call) : value :=
  match c with
  | plot _ _ _ fill _ _ _ _ _ => fill
  | circle _ _ _ fill _ _ _ => fill
  | _ => VNone
  end.

(** The [radius] argument of a [circle] call. *)
Definition radius_of (c : call) : option R :=
  match c with
  | circle _ radius _ _ _ _ _ => Some radius
  | _ => None
  end.

(** The [dx] and [dy] arguments of an [arrow] call. *)
Definition displacement_of (c : call) : option (R * R) :=
  match c with
  | arrow _ _ dx dy _ _ _ _ _ => Some (dx, dy)
  | _ => None
  end.

(** The points a [plot] call strokes, from its two coordinate lists. *)
Definition stroke_of (c : call) : list Point :=
  match c with
  | plot xs ys _ _ _ _ _ _ _ => zip_with util.mkPoint xs ys
  | _ => []
  end.

End Figure.

(** Modelled from the spec: [types.BBox] is not among the sources.  Section
    3: (xmin, ymin, xmax, ymax). *)
Record BBox : Type := mkBBox { xmin : R; ymin : R; xmax : R; ymax : R }.

(** ** [schemdraw.segments] *)

(** [a if a is not None else b] *)
Definition if_not_None (a b : value) : value :=
  if decide (a = VNone) then b else a.

(** [a if a else b] *)
Definition if_truthy (a b : value) : value :=
  if truthy a then a else b.

(** [{None: None, 'start': 'end', 'end': 'start'}.get(endref)] *)
Definition swap_endref (endref : value) : value :=
  match endref with
  | VNone => VNone
  | VStr s =>
      default VNone
        (({[ "start" := VStr "end"; "end" := VStr "start" ]}
            : gmap string value) !! s)
  | _ => VNone
  end.

(** [{'cw': 'ccw', 'ccw': 'cw'}.get(arrow, None)] *)
Definition swap_arrow (arrow : value) : value :=
  match arrow with
  | VStr s =>
      default VNone
        (({[ "cw" := VStr "ccw"; "ccw" := VStr "cw" ]}
            : gmap string value) !! s)
  | _ => VNone
  end.

Module Segment.

Record t : Type := mk {
  path : list Point;
  zorder : value;
  color : value;
  fill : value;
  lw : value;
  ls : value;
  capstyle : value;
  joinstyle : value
}.

Definition __init__ (path : list Point) (kwargs : gmap string value) : t :=
  mk path
    (get kwargs "zorder" VNone)
    (get kwargs "color" VNone)
    (get kwargs "fill" VNone)
    (get kwargs "lw" VNone)
    (get kwargs "ls" VNone)
    (get kwargs "capstyle" VNone)
    (get kwargs "joinstyle" VNone).

(** The call [Segment(path, **kwargs)]. *)
Definition new (path : list Point) (kwargs : gmap string value) : result t :=
  call ["self"; "path"] kwargs (Ok (__init__ path kwargs)).

(** The dictionary [params] of [xform], before its update. *)
Definition params (self : t) : gmap string value :=
  {[ "zorder" := zorder self;
     "color" := color self;
     "fill" := fill self;
     "lw" := lw self;
     "ls" := ls self;
     "capstyle" := capstyle self;
     "joinstyle" := joinstyle self ]}.

(** The call [self.xform(transform, **style)]. *)
Definition xform (self : t) (transform : Transform.t)
    (style : gmap string value) : result t :=
  call ["self"; "transform"] style
    (let params := update (params self) style in
     new (Transform.transform_array transform (path self)) params).

Definition doreverse (self : t) (centerx : R) : t :=
  mk (List.map (fun p => util.mirrorx p centerx) (rev (path self)))
    (zorder self) (color self) (fill self) (lw self) (ls self)
    (capstyle self) (joinstyle self).

Definition doflip (self : t) : t :=
  mk (List.map util.flip (path self))
    (zorder self) (color self) (fill self) (lw self) (ls self)
    (capstyle self) (joinstyle self).

(** The local [color] of [draw]. *)
Definition draw_color (self : t) (style : gmap string value) : value :=
  if_truthy (color self) (get style "color" (VStr "black")).

(** The local [fill] of [draw] before the test for a closed path. *)
Definition draw_fill (self : t) (style : gmap string value) : value :=
  if_not_None (fill self) (get style "fill" VNone).

(** The call [self.draw(fig, transform, **style)]: the [fig.plot] call it
    makes.  [set(tlist)] keeps one copy of every point. *)
Definition draw (self : t) (transform : Transform.t)
    (style : gmap string value) : result Figure.call :=
  call ["self"; "fig"; "transform"] style
    (let path := Transform.transform_array transform (path self) in
     let zorder := if_not_None (zorder self) (get style "zorder" (VNum 2)) in
     let color := draw_color self style in
     let fill := draw_fill self style in
     let ls := if_truthy (ls self) (get style "ls" (VStr "-")) in
     let lw := if_truthy (lw self) (get style "lw" (VNum 2)) in
     let capstyle :=
       if_truthy (capstyle self) (get style "capstyle" (VStr "round")) in
     let joinstyle :=
       if_truthy (joinstyle self) (get style "joinstyle" (VStr "round")) in
     let fill :=
       if truthy fill then
         let tlist := path in
         let dofill :=
           bool_decide (length tlist <> length (remove_dups tlist)) in
         if negb dofill then VNone
         else if decide (fill = VBool true) then color
         else if decide (fill = VBool false) then VNone
         else fill
       else fill in
     let x := List.map util.x path in
     let y := List.map util.y path in
     Ok (Figure.plot x y color fill ls lw capstyle joinstyle zorder)).

End Segment.

Module SegmentText.

Record t : Type := mk {
  xy : Point;
  text : string;
  align : value;
  font : value;
  fontsize : value;
  color : value;
  rotation : value;
  rotation_mode : value;
  zorder : value
}.

Definition __init__ (pos : Point) (label : string)
    (kwargs : gmap string value) : t :=
  mk pos label
    (get kwargs "align" VNone)
    (get kwargs "font" VNone)
    (get kwargs "fontsize" (VNum 14))
    (get kwargs "color" VNone)
    (get kwargs "rotation" VNone)
    (get kwargs "rotation_mode" VNone)
    (get kwargs "zorder" VNone).

(** The call [SegmentText(pos, label, **kwargs)]. *)
Definition new (pos : Point) (label : string) (kwargs : gmap string value)
    : result t :=
  call ["self"; "pos"; "label"] kwargs (Ok (__init__ pos label kwargs)).

Definition doreverse (self : t) (centerx : R) : t :=
  mk (util.mirrorx (xy self) centerx) (text self) (align self) (font self)
    (fontsize self) (color self) (rotation self) (rotation_mode self)
    (zorder self).

Definition doflip (self : t) : t :=
  mk (util.flip (xy self)) (text self) (align self) (font self)
    (fontsize self) (color self) (rotation self) (rotation_mode self)
    (zorder self).

(** The dictionary [params] of [xform], before its update. *)
Definition params (self : t) : gmap string value :=
  {[ "align" := align self;
     "font" := font self;
     "fontsize" := fontsize self;
     "color" := color self;
     "rotation" := rotation self;
     "rotation_mode" := rotation_mode self;
     "zorder" := zorder self ]}.

(** The call [self.xform(transform, **style)]. *)
Definition xform (self : t) (transform : Transform.t)
    (style : gmap string value) : result t :=
  call ["self"; "transform"] style
    (let params := update (params self) style in
     new (Transform.transform transform (xy self) VNone) (text self) params).

End SegmentText.

Module SegmentPoly.

Record t : Type := mk {
  verts : list Point;
  closed : value;
  cornerradius : value;
  color : value;
  fill : value;
  joinstyle : value;
  capstyle : value;
  zorder : value;
  lw : value;
  ls : value
}.

Definition __init__ (verts : list Point) (kwargs : gmap string value) : t :=
  mk verts
    (get kwargs "closed" VNone)
    (get kwargs "cornerradius" (VNum 0))
    (get kwargs "color" VNone)
    (get kwargs "fill" VNone)
    (get kwargs "joinstyle" VNone)
    (get kwargs "capstyle" VNone)
    (get kwargs "zorder" VNone)
    (get kwargs "lw" VNone)
    (get kwargs "ls" VNone).

(** The call [SegmentPoly(verts, **kwargs)]. *)
Definition new (verts : list Point) (kwargs : gmap string value) : result t :=
  call ["self"; "verts"] kwargs (Ok (__init__ verts kwargs)).

Definition doreverse (self : t) (centerx : R) : t :=
  mk (List.map (fun v => util.mirrorx v centerx) (rev (verts self)))
    (closed self) (cornerradius self) (color self) (fill self)
    (joinstyle self) (capstyle self) (zorder self) (lw self) (ls self).

Definition doflip (self : t) : t :=
  mk (List.map util.flip (verts self))
    (closed self) (cornerradius self) (color self) (fill self)
    (joinstyle self) (capstyle self) (zorder self) (lw self) (ls self).

(** The dictionary [params] of [xform], before its update. *)
Definition params (self : t) : gmap string value :=
  {[ "color" := color self;
     "fill" := fill self;
     "joinstyle" := joinstyle self;
     "capstyle" := capstyle self;
     "lw" := lw self;
     "ls" := ls self;
     "cornerradius" := cornerradius self;
     "zorder" := zorder self ]}.

(** The call [self.xform(transform, **style)]. *)
Definition xform (self : t) (transform : Transform.t)
    (style : gmap string value) : result t :=
  call ["self"; "transform"] style
    (let params := update (params self) style in
     new (Transform.transform_array transform (verts self)) params).

End SegmentPoly.

Module SegmentCircle.

Record t : Type := mk {
  center : Point;
  radius : R;
  zorder : value;
  color : value;
  fill : value;
  lw : value;
  ls : value;
  endref : value
}.

Definition __init__ (center : Point) (radius : R)
    (kwargs : gmap string value) : t :=
  mk center radius
    (get kwargs "zorder" VNone)
    (get kwargs "color" VNone)
    (get kwargs "fill" VNone)
    (get kwargs "lw" VNone)
    (get kwargs "ls" VNone)
    (get kwargs "ref" VNone).

(** The call [SegmentCircle(center, radius, **kwargs)]. *)
Definition new (center : Point) (radius : R) (kwargs : gmap string value)
    : result t :=
  call ["self"; "center"; "radius"] kwargs
    (Ok (__init__ center radius kwargs)).

Definition doreverse (self : t) (centerx : R) : t :=
  mk (util.mirrorx (center self) centerx) (radius self) (zorder self)
    (color self) (fill self) (lw self) (ls self)
    (swap_endref (endref self)).

Definition doflip (self : t) : t :=
  mk (util.flip (center self)) (radius self) (zorder self)
    (color self) (fill self) (lw self) (ls self) (endref self).

(** The dictionary [params] of [xform], before its update. *)
Definition params (self : t) : gmap string value :=
  {[ "zorder" := zorder self;
     "color" := color self;
     "fill" := fill self;
     "lw" := lw self;
     "ls" := ls self;
     "ref" := endref self ]}.

(** The call [self.xform(transform, **style)]. *)
Definition xform (self : t) (transform : Transform.t)
    (style : gmap string value) : result t :=
  call ["self"; "transform"] style
    (let params := update (params self) style in
     new (Transform.transform transform (center self) (endref self))
       (radius self) params).

(** The call [self.draw(fig, transform, **style)]: the [fig.circle] call it
    makes. *)
Definition draw (self : t) (transform : Transform.t)
    (style : gmap string value) : result Figure.call :=
  call ["self"; "fig"; "transform"] style
    (let center :=
       Transform.transform transform (center self) (endref self) in
     let radius := Transform.zoom transform * radius self in
     let zorder := if_not_None (zorder self) (get style "zorder" (VNum 1)) in
     let color := if_truthy (color self) (get style "color" (VStr "black")) in
     let fill := if_not_None (fill self) (get style "fill" VNone) in
     let ls := if_truthy (ls self) (get style "ls" (VStr "-")) in
     let lw := if_truthy (lw self) (get style "lw" (VNum 2)) in
     let fill :=
       if decide (fill = VBool true) then color
       else if decide (fill = VBool false) then VNone
       else fill in
     Ok (Figure.circle center radius color fill lw ls zorder)).

End SegmentCircle.

Module SegmentArrow.

Record t : Type := mk {
  tail : Point;
  head : Point;
  zorder : value;
  headwidth : value;
  headlength : value;
  color : value;
  lw : value;
  endref : value
}.

Definition __init__ (tail head : Point) (kwargs : gmap string value) : t :=
  mk tail head
    (get kwargs "zorder" VNone)
    (get kwargs "headwidth" VNone)
    (get kwargs "headlength" VNone)
    (get kwargs "color" VNone)
    (get kwargs "lw" VNone)
    (get kwargs "ref" VNone).

(** The call [SegmentArrow(tail, head, **kwargs)]. *)
Definition new (tail head : Point) (kwargs : gmap string value) : result t :=
  call ["self"; "tail"; "head"] kwargs (Ok (__init__ tail head kwargs)).

Definition doreverse (self : t) (centerx : R) : t :=
  mk (util.mirrorx (tail self) centerx) (util.mirrorx (head self) centerx)
    (zorder self) (headwidth self) (headlength self) (color self) (lw self)
    (swap_endref (endref self)).

Definition doflip (self : t) : t :=
  mk (util.flip (tail self)) (util.flip (head self))
    (zorder self) (headwidth self) (headlength self) (color self) (lw self)
    (endref self).

(** The dictionary [params] of [xform], before its update. *)
Definition params (self : t) : gmap string value :=
  {[ "zorder" := zorder self;
     "color" := color self;
     "lw" := lw self;
     "headwidth" := headwidth self;
     "headlength" := headlength self;
     "ref" := endref self ]}.

(** The call [self.xform(transform, **style)]. *)
Definition xform (self : t) (transform : Transform.t)
    (style : gmap string value) : result t :=
  call ["self"; "transform"] style
    (let params := update (params self) style in
     new (Transform.transform transform (tail self) (endref self))
       (Transform.transform transform (head self) (endref self))
       params).

(** The call [self.draw(fig, transform, **style)]: the [fig.arrow] call it
    makes. *)
Definition draw (self : t) (transform : Transform.t)
    (style : gmap string value) : result Figure.call :=
  call ["self"; "fig"; "transform"] style
    (let tail := Transform.transform transform (tail self) (endref self) in
     let head := Transform.transform transform (head self) (endref self) in
     let zorder := if_not_None (zorder self) (get style "zorder" (VNum 1)) in
     let color := if_truthy (color self) (get style "color" (VStr "black")) in
     let lw := if_truthy (lw self) (get style "lw" (VNum 2)) in
     let headwidth :=
       if_truthy (headwidth self) (get style "headwidth" (VNum (2 / 10))) in
     let headlength :=
       if_truthy (headlength self) (get style "headlength" (VNum (2 / 10))) in
     Ok (Figure.arrow (util.x tail) (util.y tail)
           (util.x head - util.x tail) (util.y head - util.y tail)
           headwidth headlength color lw zorder)).

End SegmentArrow.

(** ** Python built-ins the arc's bounding box uses *)

(** [math.atan2(y, x)]: the angle of the point (x, y), in (-pi, pi]. *)
Definition atan2 (y x : R) : R :=
  if Rlt_dec 0 x then atan (y / x)
  else if Rlt_dec x 0 then
    if Rle_dec 0 y then atan (y / x) + PI else atan (y / x) - PI
  else if Rlt_dec 0 y then PI / 2
  else if Rlt_dec y 0 then - (PI / 2)
  else 0.

(** [min(xs)]; [None] stands for the [ValueError] on an empty list. *)
Definition min_of (xs : list R) : option R :=
  match xs with
  | [] => None
  | a :: l => Some (fold_left Rmin l a)
  end.

(** [max(xs)]; [None] stands for the [ValueError] on an empty list. *)
Definition max_of (xs : list R) : option R :=
  match xs with
  | [] => None
  | a :: l => Some (fold_left Rmax l a)
  end.

Module SegmentArc.

Record t : Type := mk {
  center : Point;
  width : R;
  height : R;
  theta1 : R;
  theta2 : R;
  arrow : value;
  angle : R;
  color : value;
  lw : value;
  ls : value;
  zorder : value
}.

(** [theta1], [theta2] and [angle] are the keyword arguments of those names
    ([None]: not given, the default applies); [kwargs] holds the other
    keywords. *)
Definition __init__ (center : Point) (width height : R)
    (theta1 theta2 angle : option R) (kwargs : gmap string value) : t :=
  mk center width height
    (default 35 theta1)
    (default (-35) theta2)
    (get kwargs "arrow" VNone)
    (default 0 angle)
    (get kwargs "color" VNone)
    (get kwargs "lw" VNone)
    (get kwargs "ls" VNone)
    (get kwargs "zorder" VNone).

(** The call [SegmentArc(center, width, height, angle=.., theta1=..,
    theta2=.., **kwargs)]. *)
Definition new (center : Point) (width height angle theta1 theta2 : R)
    (kwargs : gmap string value) : result t :=
  call ["self"; "center"; "width"; "height"; "angle"; "theta1"; "theta2"]
    kwargs
    (Ok (__init__ center width height (Some theta1) (Some theta2)
           (Some angle) kwargs)).

(** Both right-hand sides of the tuple assignment read the old angles. *)
Definition doreverse (self : t) (centerx : R) : t :=
  mk (util.mirrorx (center self) centerx) (width self) (height self)
    (180 - theta2 self) (180 - theta1 self)
    (swap_arrow (arrow self))
    (angle self) (color self) (lw self) (ls self) (zorder self).

Definition doflip (self : t) : t :=
  mk (util.flip (center self)) (width self) (height self)
    (- theta2 self) (- theta1 self)
    (swap_arrow (arrow self))
    (angle self) (color self) (lw self) (ls self) (zorder self).

(** The dictionary [params] of [xform], before its update. *)
Definition params (self : t) : gmap string value :=
  {[ "color" := color self;
     "lw" := lw self;
     "ls" := ls self;
     "zorder" := zorder self ]}.

(** The call [self.xform(transform, **style)]. *)
Definition xform (self : t) (transform : Transform.t)
    (style : gmap string value) : result t :=
  call ["self"; "transform"] style
    (let angle := angle self + Transform.theta transform in
     let params := update (params self) style in
     new (Transform.transform transform (center self) VNone)
       (width self * Transform.zoom transform)
       (height self * Transform.zoom transform)
       angle (theta1 self) (theta2 self) params).

(** [while t2 < t1: t2 += 2*math.pi], run for at most [fuel] tests of the
    condition; [None] when the fuel runs out. *)
Fixpoint while_below (fuel : nat) (t1 t2 : R) : option R :=
  match fuel with
  | O => None
  | S fuel' =>
      if Rlt_dec t2 t1 then while_below fuel' t1 (t2 + 2 * PI) else Some t2
  end.

(** The parameters [t1] and [t2] of [get_bbox] when its loop exits. *)
Definition sweep (fuel : nat) (self : t) : option (R * R) :=
  let theta1 := util.radians (theta1 self) in
  let theta2 := util.radians (theta2 self) in
  let t1 := atan2 (width self * sin theta1) (height self * cos theta1) in
  let t2 := atan2 (width self * sin theta2) (height self * cos theta2) in
  match while_below fuel t1 t2 with
  | Some t2 => Some (t1, t2)
  | None => None
  end.

(** The list [t] of [get_bbox]. *)
Definition samples (fuel : nat) (self : t) : option (list R) :=
  match sweep fuel self with
  | Some (t1, t2) => Some (util.linspace t1 t2 500)
  | None => None
  end.

Definition get_bbox (fuel : nat) (self : t) : option BBox :=
  match samples fuel self with
  | None => None
  | Some t =>
      let sint := List.map sin t in
      let cost := List.map cos t in
      let phi := util.radians (angle self) in
      let cosphi := cos phi in
      let sinphi := sin phi in
      let rx := width self / 2 in
      let ry := height self / 2 in
      let xx :=
        List.map
          (fun '(st, ct) =>
             util.x (center self) + rx * ct * cosphi - ry * st * sinphi)
          (zip sint cost) in
      let yy :=
        List.map
          (fun '(st, ct) =>
             util.y (center self) + rx * ct * sinphi + ry * st * cosphi)
          (zip sint cost) in
      match min_of xx, min_of yy, max_of xx, max_of yy with
      | Some x0, Some y0, Some x1, Some y1 => Some (mkBBox x0 y0 x1 y1)
      | _, _, _, _ => None
      end
  end.

(** The call [self.draw(fig, transform, **style)]: the [fig.arc] call it
    makes. *)
Definition draw (self : t) (transform : Transform.t)
    (style : gmap string value) : result Figure.call :=
  call ["self"; "fig"; "transform"] style
    (let center := Transform.transform transform (center self) VNone in
     let angle := angle self + Transform.theta transform in
     let zorder := if_not_None (zorder self) (get style "zorder" (VNum 1)) in
     let color := if_truthy (color self) (get style "color" (VStr "black")) in
     let ls := if_truthy (ls self) (get style "ls" (VStr "-")) in
     let lw := if_truthy (lw self) (get style "lw" (VNum 2)) in
     let width := width self * Transform.zoom transform in
     let height := height self * Transform.zoom transform in
     Ok (Figure.arc center width height (theta1 self) (theta2 self) angle
           color lw ls zorder (arrow self))).

End SegmentArc.

(** ** A segment of any class *)

(** An element's segment list holds objects of the six classes; a method
    called on one dispatches on its class. *)
Inductive segment : Type :=
| Line (s : Segment.t)
| Text (s : SegmentText.t)
| Poly (s : SegmentPoly.t)
| Circle (s : SegmentCircle.t)
| Arrow (s : SegmentArrow.t)
| Arc (s : SegmentArc.t).

(** [s.doreverse(centerx)] *)
Definition doreverse (s : segment) (centerx : R) : segment :=
  match s with
  | Line s => Line (Segment.doreverse s centerx)
  | Text s => Text (SegmentText.doreverse s centerx)
  | Poly s => Poly (SegmentPoly.doreverse s centerx)
  | Circle s => Circle (SegmentCircle.doreverse s centerx)
  | Arrow s => Arrow (SegmentArrow.doreverse s centerx)
  | Arc s => Arc (SegmentArc.doreverse s centerx)
  end.

(** [s.doflip()] *)
Definition doflip (s : segment) : segment :=
  match s with
  | Line s => Line (Segment.doflip s)
  | Text s => Text (SegmentText.doflip s)
  | Poly s => Poly (SegmentPoly.doflip s)
  | Circle s => Circle (SegmentCircle.doflip s)
  | Arrow s => Arrow (SegmentArrow.doflip s)
  | Arc s => Arc (SegmentArc.doflip s)
  end.

(** The tags a segment carries are among those its class documents: the flip
    reference of a circle or an arrow is ['start'], ['end'] or [None], the
    arrow direction of an arc is ['cw'], ['ccw'] or [None]. *)
Definition documented_tags (s : segment) : Prop :=
  match s with
  | Circle c =>
      SegmentCircle.endref c = VNone \/
      SegmentCircle.endref c = VStr "start" \/
      SegmentCircle.endref c = VStr "end"
  | Arrow a =>
      SegmentArrow.endref a = VNone \/
      SegmentArrow.endref a = VStr "start" \/
      SegmentArrow.endref a = VStr "end"
  | Arc a =>
      SegmentArc.arrow a = VNone \/
      SegmentArc.arrow a = VStr "cw" \/
      SegmentArc.arrow a = VStr "ccw"
  | _ => True
  end.

(** ** Further methods of the segment classes *)

(** [Segment.end]: [self.path[-1]]; [None] stands for the [IndexError] on
    an empty path. *)
Definition Segment_end (self : Segment.t) : option Point :=
  last (Segment.path self).

(** [SegmentText.end] *)
Definition SegmentText_end (self : SegmentText.t) : option Point :=
  Some (SegmentText.xy self).

(** [SegmentPoly.end]: [self.verts[-1]]; [None] stands for the
    [IndexError] on an empty list. *)
Definition SegmentPoly_end (self : SegmentPoly.t) : option Point :=
  last (SegmentPoly.verts self).

(** [SegmentCircle.end] *)
Definition SegmentCircle_end (self : SegmentCircle.t) : option Point :=
  Some (SegmentCircle.center self).

(** [SegmentArrow.end] *)
Definition SegmentArrow_end (self : SegmentArrow.t) : option Point :=
  Some (SegmentArrow.head self).

(** [SegmentArc.end] *)
Definition SegmentArc_end (self : SegmentArc.t) : option Point :=
  Some (SegmentArc.center self).

(** [BBox(min(x), min(y), max(x), max(y))] over a list of points; [None]
    stands for the [ValueError] of [min] on an empty list. *)
Definition points_bbox (pts : list Point) : option BBox :=
  let x := List.map util.x pts in
  let y := List.map util.y pts in
  match min_of x, min_of y, max_of x, max_of y with
  | Some x0, Some y0, Some x1, Some y1 => Some (mkBBox x0 y0 x1 y1)
  | _, _, _, _ => None
  end.

(** [Segment.get_bbox] *)
Definition Segment_get_bbox (self : Segment.t) : option BBox :=
  points_bbox (Segment.path self).

(** [SegmentPoly.get_bbox] *)
Definition SegmentPoly_get_bbox (self : SegmentPoly.t) : option BBox :=
  points_bbox (SegmentPoly.verts self).

(** [SegmentCircle.get_bbox] *)
Definition SegmentCircle_get_bbox (self : SegmentCircle.t) : BBox :=
  let xmin := util.x (SegmentCircle.center self) - SegmentCircle.radius self in
  let xmax := util.x (SegmentCircle.center self) + SegmentCircle.radius self in
  let ymin := util.y (SegmentCircle.center self) - SegmentCircle.radius self in
  let ymax := util.y (SegmentCircle.center self) + SegmentCircle.radius self in
  mkBBox xmin ymin xmax ymax.

(** [SegmentArrow.get_bbox].  The head width enters the arithmetic: a
    number does as it is, [True] as 1, and a string or a tuple raises
    [TypeError]. *)
Definition SegmentArrow_get_bbox (self : SegmentArrow.t) : result BBox :=
  let hw := if_truthy (SegmentArrow.headwidth self) (VNum (1 / 10)) in
  let xmin :=
    Rmin (util.x (SegmentArrow.tail self)) (util.x (SegmentArrow.head self)) in
  let ymin :=
    Rmin (util.y (SegmentArrow.tail self)) (util.y (SegmentArrow.head self)) in
  let xmax :=
    Rmax (util.x (SegmentArrow.tail self)) (util.x (SegmentArrow.head self)) in
  let ymax :=
    Rmax (util.y (SegmentArrow.tail self)) (util.y (SegmentArrow.head self)) in
  match hw with
  | VNum hw => Ok (mkBBox xmin (ymin - hw) xmax (ymax + hw))
  | VBool b =>
      let hw := if b then 1 else 0 in
      Ok (mkBBox xmin (ymin - hw) xmax (ymax + hw))
  | _ => Raise TypeError
  end.

(** [s.end()] on a segment of any class. *)
Definition segment_end (s : segment) : option Point :=
  match s with
  | Line s => Segment_end s
  | Text s => SegmentText_end s
  | Poly s => SegmentPoly_end s
  | Circle s => SegmentCircle_end s
  | Arrow s => SegmentArrow_end s
  | Arc s => SegmentArc_end s
  end.

(** The result of a call, passed through [f] when it returned. *)
Definition result_map {A B : Type} (f : A -> B) (r : result A) : result B :=
  match r with
  | Ok a => Ok (f a)
  | Raise e => Raise e
  end.

(** [s.xform(transform, **style)] on a segment of any class. *)
Definition xform (s : segment) (transform : Transform.t)
    (style : gmap string value) : result segment :=
  match s with
  | Line s => result_map Line (Segment.xform s transform style)
  | Text s => result_map Text (SegmentText.xform s transform style)
  | Poly s => result_map Poly (SegmentPoly.xform s transform style)
  | Circle s => result_map Circle (SegmentCircle.xform s transform style)
  | Arrow s => result_map Arrow (SegmentArrow.xform s transform style)
  | Arc s => result_map Arc (SegmentArc.xform s transform style)
  end.

(** The reference a class's [xform] hands to [transform]: the flip
    reference of a circle or an arrow, [None] for the other classes. *)
Definition xform_ref (s : segment) : value :=
  match s with
  | Circle s => SegmentCircle.endref s
  | Arrow s => SegmentArrow.endref s
  | _ => VNone
  end.

(** The parameters the constructor call of each class's [xform] binds,
    besides [self] and [transform] of the [xform] call itself. *)
Definition xform_bound (s : segment) : list string :=
  "self" :: "transform" ::
  match s with
  | Line _ => ["path"]
  | Text _ => ["pos"; "label"]
  | Poly _ => ["verts"]
  | Circle _ => ["center"; "radius"]
  | Arrow _ => ["tail"; "head"]
  | Arc _ => ["center"; "width"; "height"; "angle"; "theta1"; "theta2"]
  end.

(** A polygon left open, as the cone of [Speaker] is:
    [SegmentPoly([(1, 0), (2, 1), (2, -2), (1, -1)], closed=False)]. *)
Definition open_poly : SegmentPoly.t :=
  SegmentPoly.__init__
    [util.mkPoint 1 0; util.mkPoint 2 1; util.mkPoint 2 (-2);
     util.mkPoint 1 (-1)]
    {[ "closed" := VBool false ]}.

(** [SegmentArrow((0, 0), (3, 4), headwidth=0)] *)
Definition flat_arrow : SegmentArrow.t :=
  SegmentArrow.__init__ (util.mkPoint 0 0) (util.mkPoint 3 4)
    {[ "headwidth" := VNum 0 ]}.

(** ** Values the examples use *)

(** [Transform(0, (0, 0))]: no rotation, no shift, zoom 1. *)
Definition identity : Transform.t :=
  Transform.mk 0 (util.mkPoint 0 0) (util.mkPoint 0 0) 1.

(** [Segment([(0, 0), (1, 0)], color='red')] *)
Definition red_line : Segment.t :=
  Segment.__init__ [util.mkPoint 0 0; util.mkPoint 1 0]
    {[ "color" := VStr "red" ]}.

(** [[(0, 0), (1, 0), (1, 1)]] *)
Definition open_path : list Point :=
  [util.mkPoint 0 0; util.mkPoint 1 0; util.mkPoint 1 1].

(** [[(0, 0), (1, 0), (1, 1), (0, 0)]] *)
Definition closed_path : list Point :=
  [util.mkPoint 0 0; util.mkPoint 1 0; util.mkPoint 1 1; util.mkPoint 0 0].

(** [SegmentArc((0, 0), 2, 2, theta1=0, theta2=180)] *)
Definition half_circle : SegmentArc.t :=
  SegmentArc.__init__ (util.mkPoint 0 0) 2 2 (Some 0) (Some 180) None ∅.

(** [SegmentArc((1, 2), 2, 1, arrow='cw')], with the default angles. *)
Definition cw_arc : SegmentArc.t :=
  SegmentArc.__init__ (util.mkPoint 1 2) 2 1 None None None
    {[ "arrow" := VStr "cw" ]}.

(** [Segment([(0, 0), (1, 0), (1, 1), (0, 0)], fill='red')] *)
Definition filled_loop : Segment.t :=
  Segment.__init__ closed_path {[ "fill" := VStr "red" ]}.

(** [Segment([(0, 0), (1, 0), (1, 1), (0, 0)], fill=True)] *)
Definition true_filled_loop : Segment.t :=
  Segment.__init__ closed_path {[ "fill" := VBool true ]}.

(** The style [color=None]. *)
Definition no_colour : gmap string value := {[ "color" := VNone ]}.

(** [SegmentCircle((1, 1), 3)] *)
Definition dot : SegmentCircle.t :=
  SegmentCircle.__init__ (util.mkPoint 1 1) 3 ∅.

(** [Transform(0, (0, 0), zoom=2)] *)
Definition doubling : Transform.t :=
  Transform.mk 0 (util.mkPoint 0 0) (util.mkPoint 0 0) 2.

(** * Properties *)

(** ** Keyword dictionaries *)

Lemma call_unbound {A : Type} (names : list string) (kw : gmap string value)
    (body : result A) :
  unbound names kw -> call names kw body = body.
Proof. intros H. unfold call. destruct (decide (unbound names kw)); done. Qed.

Lemma call_Ok {A : Type} (names : list string) (kw : gmap string value)
    (body : result A) (a : A) :
  call names kw body = Ok a -> unbound names kw /\ body = Ok a.
Proof. unfold call. destruct (decide (unbound names kw)); [done|discriminate]. Qed.

Lemma get_update_Some (d e : gmap string value) (k : string) (v dflt : value) :
  e !! k = Some v -> get (update d e) k dflt = v.
Proof.
  intros H. unfold get, update.
  by rewrite (lookup_union_Some_l e d k v H).
Qed.

Lemma get_update_None (d e : gmap string value) (k : string) (dflt : value) :
  e !! k = None -> get (update d e) k dflt = get d k dflt.
Proof.
  intros H. unfold get, update.
  by rewrite (lookup_union_r e d k H).
Qed.

(** ** [Transform.transform] *)

Lemma lshifts_start (T : Transform.t) :
  Transform.lshifts T !! "start" = Some (util.mkPoint 0 0).
Proof. unfold Transform.lshifts. by simplify_map_eq. Qed.

Lemma lshifts_end (T : Transform.t) :
  Transform.lshifts T !! "end" = Some (util.mul (Transform.localshift T) 2).
Proof. unfold Transform.lshifts. by simplify_map_eq. Qed.

Lemma lshifts_other (T : Transform.t) (s : string) :
  s <> "start" -> s <> "end" -> Transform.lshifts T !! s = None.
Proof. intros H1 H2. unfold Transform.lshifts. by simplify_map_eq. Qed.

(** C1.  [transform(p, ref)] adds the local shift to [p], scales the sum by
    the zoom factor, rotates it by [theta] degrees about the origin and then
    adds the global shift; the local shift added is the zero point for
    [ref = 'start'], twice [localshift] for [ref = 'end'] and [localshift]
    for every other [ref], [None] included. *)
Theorem transform_shift_zoom_rotate_translate (T : Transform.t) (p : Point) :
  let placed (l : Point) : Point :=
    let c := cos (Transform.theta T * PI / 180) in
    let s := sin (Transform.theta T * PI / 180) in
    let u := (util.x p + util.x l) * Transform.zoom T in
    let v := (util.y p + util.y l) * Transform.zoom T in
    util.mkPoint
      (u * c - v * s + util.x (Transform.shift T))
      (u * s + v * c + util.y (Transform.shift T)) in
  Transform.transform T p (VStr "start") = placed (util.mkPoint 0 0) /\
  Transform.transform T p (VStr "end") =
    placed (util.mkPoint (2 * util.x (Transform.localshift T))
                         (2 * util.y (Transform.localshift T))) /\
  Transform.transform T p VNone = placed (Transform.localshift T) /\
  forall ref : value,
    ref <> VStr "start" -> ref <> VStr "end" ->
    Transform.transform T p ref = placed (Transform.localshift T).
Proof.
  cbv zeta. unfold Transform.transform.
  rewrite lshifts_start, lshifts_end.
  assert (forall ref : value,
            ref <> VStr "start" -> ref <> VStr "end" ->
            match ref with
            | VStr s => Transform.lshifts T !! s
            | _ => None
            end = None) as Hother.
  { intros [| | |s|] Hs He; try reflexivity.
    apply lshifts_other; congruence. }
  repeat split; try (intros ref Hs He; rewrite (Hother ref Hs He));
    unfold util.add, util.rotate, util.mul, util.radians; cbn;
    f_equal; ring.
Qed.

(** ** Mirroring and flipping *)

Lemma mirrorx_involutive (p : Point) (centerx : R) :
  util.mirrorx (util.mirrorx p centerx) centerx = p.
Proof. destruct p as [a b]. unfold util.mirrorx. cbn. f_equal. ring. Qed.

Lemma flip_involutive (p : Point) : util.flip (util.flip p) = p.
Proof. destruct p as [a b]. unfold util.flip. cbn. f_equal. ring. Qed.

Lemma mirror_path_involutive (l : list Point) (centerx : R) :
  List.map (fun p => util.mirrorx p centerx)
    (rev (List.map (fun p => util.mirrorx p centerx) (rev l))) = l.
Proof.
  rewrite <- List.map_rev, rev_involutive, List.map_map.
  induction l as [|p l IH]; cbn; [done|].
  by rewrite mirrorx_involutive, IH.
Qed.

Lemma flip_path_involutive (l : list Point) :
  List.map util.flip (List.map util.flip l) = l.
Proof.
  rewrite List.map_map.
  induction l as [|p l IH]; cbn; [done|].
  by rewrite flip_involutive, IH.
Qed.

(** C3.  Mirroring an arc replaces its angles (theta1, theta2) by
    (180 - theta2, 180 - theta1), flipping it replaces them by
    (- theta2, - theta1), and either turns the arrow tag 'cw' into 'ccw' and
    'ccw' into 'cw'. *)
Theorem SegmentArc_doreverse_doflip_angles_arrow
    (a : SegmentArc.t) (centerx : R) :
  let r := SegmentArc.doreverse a centerx in
  let f := SegmentArc.doflip a in
  (SegmentArc.theta1 r, SegmentArc.theta2 r) =
    (180 - SegmentArc.theta2 a, 180 - SegmentArc.theta1 a) /\
  (SegmentArc.theta1 f, SegmentArc.theta2 f) =
    (- SegmentArc.theta2 a, - SegmentArc.theta1 a) /\
  (SegmentArc.arrow a = VStr "cw" ->
     SegmentArc.arrow r = VStr "ccw" /\ SegmentArc.arrow f = VStr "ccw") /\
  (SegmentArc.arrow a = VStr "ccw" ->
     SegmentArc.arrow r = VStr "cw" /\ SegmentArc.arrow f = VStr "cw") /\
  (SegmentArc.arrow a = VNone ->
     SegmentArc.arrow r = VNone /\ SegmentArc.arrow f = VNone).
Proof.
  cbv zeta. cbn [SegmentArc.doreverse SegmentArc.doflip SegmentArc.theta1
    SegmentArc.theta2 SegmentArc.arrow].
  repeat split; try reflexivity;
    match goal with Htag : SegmentArc.arrow a = _ |- _ => rewrite Htag end;
    reflexivity.
Qed.

Lemma swap_endref_involutive (v : value) :
  v = VNone \/ v = VStr "start" \/ v = VStr "end" ->
  swap_endref (swap_endref v) = v.
Proof. intros [-> | [-> | ->]]; reflexivity. Qed.

Lemma swap_arrow_involutive (v : value) :
  v = VNone \/ v = VStr "cw" \/ v = VStr "ccw" ->
  swap_arrow (swap_arrow v) = v.
Proof. intros [-> | [-> | ->]]; reflexivity. Qed.

(** C4.  Mirroring a segment of any class twice about the same axis gives
    the segment back: coordinates, point order, arc angles, the arrow tag
    and the reference tag. *)
Theorem doreverse_involutive (P : segment) (x0 : R) :
  documented_tags P -> doreverse (doreverse P x0) x0 = P.
Proof.
  intros Htags. destruct P as [s|s|s|s|s|s]; destruct s; cbn in *; f_equal.
  - unfold Segment.doreverse; cbn. f_equal. apply mirror_path_involutive.
  - unfold SegmentText.doreverse; cbn. f_equal. apply mirrorx_involutive.
  - unfold SegmentPoly.doreverse; cbn. f_equal. apply mirror_path_involutive.
  - unfold SegmentCircle.doreverse; cbn. f_equal.
    + apply mirrorx_involutive.
    + by apply swap_endref_involutive.
  - unfold SegmentArrow.doreverse; cbn. f_equal.
    + apply mirrorx_involutive.
    + apply mirrorx_involutive.
    + by apply swap_endref_involutive.
  - unfold SegmentArc.doreverse; cbn. f_equal.
    + apply mirrorx_involutive.
    + ring.
    + ring.
    + by apply swap_arrow_involutive.
Qed.

Lemma doreverse_involutive_witness :
  documented_tags (Arc cw_arc) /\
  doreverse (doreverse (Arc cw_arc) 3) 3 = Arc cw_arc.
Proof.
  assert (documented_tags (Arc cw_arc)) as Htags.
  { cbn. right. left. reflexivity. }
  split; [exact Htags|].
  exact (doreverse_involutive (Arc cw_arc) 3 Htags).
Defined.

(** ** Calls with a style dictionary *)

Lemma unbound_subseteq (names names' : list string) (kw : gmap string value) :
  names ⊆ names' -> unbound names' kw -> unbound names kw.
Proof.
  unfold unbound. rewrite !Forall_forall. intros Hsub H k Hk.
  apply H, Hsub, Hk.
Qed.

Lemma unbound_update (names : list string) (d e : gmap string value) :
  unbound names d -> unbound names e -> unbound names (update d e).
Proof.
  unfold unbound, update. rewrite !Forall_forall. intros Hd He k Hk.
  apply lookup_union_None. split; [by apply He | by apply Hd].
Qed.

Ltac unbound_literal := repeat constructor; by vm_compute.

Ltac unbound_among H :=
  eapply unbound_subseteq; [|exact H];
  let k := fresh "k" in
  intros k; rewrite !elem_of_cons, !elem_of_nil; tauto.

Lemma Segment_xform_Ok (self : Segment.t) (T : Transform.t)
    (style : gmap string value) :
  unbound ["self"; "transform"; "path"] style ->
  Segment.xform self T style =
    Ok (Segment.__init__ (Transform.transform_array T (Segment.path self))
          (update (Segment.params self) style)).
Proof.
  intros H. unfold Segment.xform, Segment.new.
  rewrite call_unbound by unbound_among H.
  cbv zeta. rewrite call_unbound; [done|].
  apply unbound_update.
  - unfold Segment.params. unbound_literal.
  - unbound_among H.
Qed.

Lemma get_params_update (d e : gmap string value) (k : string) (own : value) :
  d !! k = Some own ->
  get (update d e) k VNone = default own (e !! k).
Proof.
  intros Hd. destruct (e !! k) as [v|] eqn:He; cbn.
  - by apply get_update_Some.
  - rewrite get_update_None by done. unfold get. by rewrite Hd.
Qed.

(** What [Segment.xform] does with the style: every attribute the style
    names replaces the segment's own. *)
Lemma Segment_xform_attributes (self : Segment.t) (T : Transform.t)
    (style : gmap string value) :
  unbound ["self"; "transform"; "path"] style ->
  exists s' : Segment.t,
    Segment.xform self T style = Ok s' /\
    Segment.path s' = Transform.transform_array T (Segment.path self) /\
    Segment.zorder s' = default (Segment.zorder self) (style !! "zorder") /\
    Segment.color s' = default (Segment.color self) (style !! "color") /\
    Segment.fill s' = default (Segment.fill self) (style !! "fill") /\
    Segment.lw s' = default (Segment.lw self) (style !! "lw") /\
    Segment.ls s' = default (Segment.ls self) (style !! "ls") /\
    Segment.capstyle s' =
      default (Segment.capstyle self) (style !! "capstyle") /\
    Segment.joinstyle s' =
      default (Segment.joinstyle self) (style !! "joinstyle").
Proof.
  intros H. eexists. split; [by apply Segment_xform_Ok|].
  cbn [Segment.__init__ Segment.path Segment.zorder Segment.color
       Segment.fill Segment.lw Segment.ls Segment.capstyle
       Segment.joinstyle].
  repeat split; apply get_params_update; by vm_compute.
Qed.

(** C2.  [xform] lets the caller's style replace a value the segment
    carries: the line [Segment([(0, 0), (1, 0)], color='red')] transformed
    with the style [color='blue'] is blue. *)
Theorem Segment_xform_style_replaces_own_color :
  Segment.color red_line = VStr "red" /\
  exists s' : Segment.t,
    Segment.xform red_line identity {[ "color" := VStr "blue" ]} = Ok s' /\
    Segment.color s' = VStr "blue".
Proof.
  split; [reflexivity|].
  destruct (Segment_xform_attributes red_line identity
              {[ "color" := VStr "blue" ]}) as (s' & Hx & _ & _ & Hc & _).
  { unbound_literal. }
  exists s'. split; [exact Hx|]. rewrite Hc. reflexivity.
Qed.

(** ** Drawing a path: the closed-path test *)

Lemma length_remove_dups_le (l : list Point) :
  (length (remove_dups l) <= length l)%nat.
Proof.
  induction l as [|p l IH]; cbn; [lia|].
  destruct (decide_rel elem_of p l); cbn; lia.
Qed.

Lemma length_remove_dups_NoDup (l : list Point) :
  length (remove_dups l) = length l <-> NoDup l.
Proof.
  induction l as [|p l IH]; cbn.
  - split; [constructor|done].
  - pose proof (length_remove_dups_le l) as Hle.
    destruct (decide_rel elem_of p l) as [Hin|Hnin]; cbn.
    + split; [lia|]. intros Hnd. apply NoDup_cons in Hnd. tauto.
    + rewrite NoDup_cons. split.
      * intros Hlen. split; [done|]. apply IH. lia.
      * intros [_ Hnd]. f_equal. by apply IH.
Qed.

Lemma stroke_of_coordinates (l : list Point) :
  zip_with util.mkPoint (List.map util.x l) (List.map util.y l) = l.
Proof.
  induction l as [|[a b] l IH]; cbn; [done|]. by rewrite IH.
Qed.

(** The [fill] that [Segment.draw] hands to [fig.plot]. *)
Lemma Segment_draw_fill (self : Segment.t) (T : Transform.t)
    (style : gmap string value) :
  unbound ["self"; "fig"; "transform"] style ->
  exists c : Figure.call,
    Segment.draw self T style = Ok c /\
    Figure.stroke_of c = Transform.transform_array T (Segment.path self) /\
    Figure.fill_of c =
      let fill := Segment.draw_fill self style in
      if truthy fill then
        if decide (NoDup (Transform.transform_array T (Segment.path self)))
        then VNone
        else if decide (fill = VBool true) then Segment.draw_color self style
        else fill
      else fill.
Proof.
  intros H. unfold Segment.draw. rewrite call_unbound by exact H.
  cbv zeta. eexists. split; [reflexivity|]. split.
  - cbn. apply stroke_of_coordinates.
  - cbn [Figure.fill_of].
    set (path' := Transform.transform_array T (Segment.path self)).
    set (fill := Segment.draw_fill self style).
    destruct (truthy fill) eqn:Ht; [|done].
    destruct (decide (NoDup path')) as [Hnd|Hnd].
    + rewrite bool_decide_eq_false_2; [done|].
      intros Hne. apply Hne. symmetry. by apply length_remove_dups_NoDup.
    + rewrite bool_decide_eq_true_2.
      2:{ intros Heq. apply Hnd. apply length_remove_dups_NoDup. done. }
      cbn. destruct (decide (fill = VBool true)); [done|].
      destruct (decide (fill = VBool false)) as [Hf|]; [|done].
      rewrite Hf in Ht. discriminate.
Qed.

Lemma transform_identity (q : Point) (ref : value) :
  Transform.transform identity q ref = q.
Proof.
  assert (exists l : Point,
            default (Transform.localshift identity)
              (match ref with
               | VStr s => Transform.lshifts identity !! s
               | _ => None
               end) = l /\ util.x l = 0 /\ util.y l = 0) as (l & Hl & Hx & Hy).
  { destruct ref as [| |?|s|]; try (eexists; split; [reflexivity|by cbn]).
    destruct (Transform.lshifts identity !! s) as [l|] eqn:Hs;
      [|eexists; split; [reflexivity|by cbn]].
    exists l. split; [reflexivity|]. unfold Transform.lshifts in Hs.
    apply lookup_insert_Some in Hs as [[_ <-]|[_ Hs]]; [by cbn|].
    apply lookup_singleton_Some in Hs as [_ <-]. cbn. lra. }
  destruct q as [a b]. unfold Transform.transform. cbv zeta. rewrite Hl.
  destruct l as [lx ly]. cbn in Hx, Hy. subst lx ly.
  unfold identity.
  cbn [Transform.zoom Transform.theta Transform.shift].
  unfold util.add, util.mul, util.rotate. cbn [util.x util.y].
  replace (util.radians 0) with 0 by (unfold util.radians; lra).
  rewrite cos_0, sin_0. f_equal; ring.
Qed.

Lemma transform_array_identity (pts : list Point) :
  Transform.transform_array identity pts = pts.
Proof.
  unfold Transform.transform_array.
  induction pts as [|q pts IH]; cbn; [done|].
  by rewrite transform_identity, IH.
Qed.

Lemma NoDup_open_path : NoDup open_path.
Proof.
  unfold open_path. repeat constructor;
    rewrite ?elem_of_cons, ?elem_of_nil;
    intros H; repeat destruct H as [H|H]; try done;
    injection H; intros; lra.
Qed.

Lemma not_NoDup_closed_path : ~ NoDup closed_path.
Proof.
  unfold closed_path. intros H. apply NoDup_cons in H as [Hnin _].
  apply Hnin. rewrite !elem_of_cons. tauto.
Qed.

(** C5, as the code has it.  When a fill is requested, a line whose
    transformed path has no repeated point is drawn with the fill [None];
    one whose path has a repeated point is drawn with the requested fill
    or, when the requested fill is [True], with the stroke colour that
    [draw] resolved.  So the line is drawn filled exactly when a point
    repeats and, should the fill be [True], the resolved colour is one; when
    the resolved colour is one, exactly when a point repeats.  In every case
    the call succeeds and strokes the transformed path.  The path (0,0),
    (1,0), (1,1) is drawn with no fill, the path (0,0), (1,0), (1,1), (0,0)
    with one under the same proviso. *)
Theorem Segment_draw_fills_iff_repeated_point (self : Segment.t)
    (T : Transform.t) (style : gmap string value) :
  unbound ["self"; "fig"; "transform"] style ->
  truthy (Segment.draw_fill self style) = true ->
  let path' := Transform.transform_array T (Segment.path self) in
  let coloured :=
    Segment.draw_fill self style = VBool true ->
    truthy (Segment.draw_color self style) = true in
  exists c : Figure.call,
    Segment.draw self T style = Ok c /\
    Figure.stroke_of c = path' /\
    (NoDup path' -> Figure.fill_of c = VNone) /\
    (~ NoDup path' ->
       Figure.fill_of c =
         if decide (Segment.draw_fill self style = VBool true)
         then Segment.draw_color self style
         else Segment.draw_fill self style) /\
    (truthy (Figure.fill_of c) = true <-> ~ NoDup path' /\ coloured) /\
    (truthy (Segment.draw_color self style) = true ->
       truthy (Figure.fill_of c) = true <-> ~ NoDup path') /\
    (path' = open_path -> Figure.fill_of c = VNone) /\
    (path' = closed_path ->
       truthy (Figure.fill_of c) = true <-> coloured).
Proof.
  intros H Hfill path' coloured.
  destruct (Segment_draw_fill self T style H) as (c & Hdraw & Hstroke & Hf).
  cbv zeta in Hf. rewrite Hfill in Hf. fold path' in Hf, Hstroke.
  assert (NoDup path' -> Figure.fill_of c = VNone) as Hopen.
  { intros Hnd. rewrite Hf. by rewrite decide_True. }
  assert (~ NoDup path' ->
          Figure.fill_of c =
            if decide (Segment.draw_fill self style = VBool true)
            then Segment.draw_color self style
            else Segment.draw_fill self style) as Hclosed.
  { intros Hnd. rewrite Hf. by rewrite decide_False. }
  assert (~ NoDup path' -> truthy (Figure.fill_of c) = true <-> coloured)
    as Hiff.
  { intros Hnd. rewrite (Hclosed Hnd). unfold coloured.
    destruct (decide (Segment.draw_fill self style = VBool true)) as [He|Hne].
    - split; [by intros Ht _|]. intros Hc. by apply Hc.
    - split; [by intros _ He|]. by intros _. }
  assert (truthy (Figure.fill_of c) = true -> ~ NoDup path') as Hrep.
  { intros Ht Hnd. rewrite (Hopen Hnd) in Ht. discriminate. }
  exists c. split; [exact Hdraw|]. split; [exact Hstroke|].
  split; [exact Hopen|]. split; [exact Hclosed|]. split; [|split; [|split]].
  - split.
    + intros Ht. split; [by apply Hrep|]. by apply Hiff; [apply Hrep|].
    + intros [Hnd Hc]. by apply Hiff.
  - intros Hcolor. split; [apply Hrep|].
    intros Hnd. apply Hiff; [exact Hnd|]. by intros _.
  - intros ->. apply Hopen, NoDup_open_path.
  - intros ->. apply Hiff, not_NoDup_closed_path.
Qed.

Lemma Segment_draw_fills_iff_repeated_point_witness :
  let path' := Transform.transform_array identity (Segment.path filled_loop) in
  let coloured :=
    Segment.draw_fill filled_loop ∅ = VBool true ->
    truthy (Segment.draw_color filled_loop ∅) = true in
  exists c : Figure.call,
    Segment.draw filled_loop identity ∅ = Ok c /\
    Figure.stroke_of c = path' /\
    (NoDup path' -> Figure.fill_of c = VNone) /\
    (~ NoDup path' ->
       Figure.fill_of c =
         if decide (Segment.draw_fill filled_loop ∅ = VBool true)
         then Segment.draw_color filled_loop ∅
         else Segment.draw_fill filled_loop ∅) /\
    (truthy (Figure.fill_of c) = true <-> ~ NoDup path' /\ coloured) /\
    (truthy (Segment.draw_color filled_loop ∅) = true ->
       truthy (Figure.fill_of c) = true <-> ~ NoDup path') /\
    (path' = open_path -> Figure.fill_of c = VNone) /\
    (path' = closed_path ->
       truthy (Figure.fill_of c) = true <-> coloured).
Proof.
  apply (Segment_draw_fills_iff_repeated_point filled_loop identity ∅).
  - repeat constructor.
  - reflexivity.
Defined.

(** C5 as stated fails: the closed path (0,0), (1,0), (1,1), (0,0) with
    [fill=True], drawn under a style whose colour is [None], has a fill
    requested and a repeated point, and [draw] hands the fill [None] to the
    figure. *)
Lemma Segment_draw_closed_path_without_fill :
  truthy (Segment.draw_fill true_filled_loop no_colour) = true /\
  Transform.transform_array identity (Segment.path true_filled_loop) =
    closed_path /\
  ~ NoDup
      (Transform.transform_array identity (Segment.path true_filled_loop)) /\
  exists c : Figure.call,
    Segment.draw true_filled_loop identity no_colour = Ok c /\
    Figure.fill_of c = VNone.
Proof.
  assert (Transform.transform_array identity (Segment.path true_filled_loop) =
          closed_path) as Hp by apply transform_array_identity.
  split; [reflexivity|]. split; [exact Hp|].
  split; [rewrite Hp; apply not_NoDup_closed_path|].
  destruct (Segment_draw_fill true_filled_loop identity no_colour)
    as (c & Hdraw & _ & Hf); [unbound_literal|].
  exists c. split; [exact Hdraw|]. rewrite Hf. cbv zeta. rewrite Hp.
  replace (Segment.draw_fill true_filled_loop no_colour) with (VBool true)
    by reflexivity.
  cbn [truthy]. rewrite decide_False by apply not_NoDup_closed_path.
  rewrite decide_True by reflexivity. reflexivity.
Qed.

(** ** Constructors and degenerate input *)

(** C7, as the code has it.  [Transform.__init__] does not look at the zoom
    factor: with a zoom of zero or below it returns a transform that stores
    the zoom, and the other three arguments, as given. *)
Theorem Transform_init_accepts_nonpositive_zoom
    (theta : R) (globalshift localshift : Point) (zoom : R) :
  zoom <= 0 ->
  exists T : Transform.t,
    Transform.__init__ theta globalshift localshift zoom = Ok T /\
    Transform.zoom T = zoom /\
    Transform.theta T = theta /\
    Transform.shift T = globalshift /\
    Transform.localshift T = localshift.
Proof. intros _. eexists. split; [reflexivity|]. cbn. done. Qed.

Lemma Transform_init_accepts_nonpositive_zoom_witness :
  exists T : Transform.t,
    Transform.__init__ 90 (util.mkPoint 1 2) (util.mkPoint 0 0) (-1) = Ok T /\
    Transform.zoom T = -1 /\
    Transform.theta T = 90 /\
    Transform.shift T = util.mkPoint 1 2 /\
    Transform.localshift T = util.mkPoint 0 0.
Proof.
  apply (Transform_init_accepts_nonpositive_zoom
           90 (util.mkPoint 1 2) (util.mkPoint 0 0) (-1)).
  lra.
Defined.

(** C7 as stated fails: a zoom of zero is not above zero, and the
    construction does not raise [InvalidTransform]. *)
Lemma Transform_init_zero_zoom_no_error :
  0 <= 0 /\
  Transform.__init__ 0 (util.mkPoint 0 0) (util.mkPoint 0 0) 0 <>
    Raise InvalidTransform.
Proof. split; [lra|discriminate]. Qed.

Lemma SegmentArrow_xform_Ok (self : SegmentArrow.t) (T : Transform.t)
    (style : gmap string value) :
  unbound ["self"; "transform"; "tail"; "head"] style ->
  SegmentArrow.xform self T style =
    Ok (SegmentArrow.__init__
          (Transform.transform T (SegmentArrow.tail self)
             (SegmentArrow.endref self))
          (Transform.transform T (SegmentArrow.head self)
             (SegmentArrow.endref self))
          (update (SegmentArrow.params self) style)).
Proof.
  intros H. unfold SegmentArrow.xform, SegmentArrow.new.
  rewrite call_unbound by unbound_among H.
  cbv zeta. rewrite call_unbound; [done|].
  apply unbound_update.
  - unfold SegmentArrow.params. unbound_literal.
  - unbound_among H.
Qed.

(** An arrow whose tail and head coincide is drawn with the displacement
    (0, 0). *)
Lemma SegmentArrow_draw_zero_displacement (self : SegmentArrow.t)
    (T : Transform.t) (style : gmap string value) :
  unbound ["self"; "fig"; "transform"] style ->
  SegmentArrow.tail self = SegmentArrow.head self ->
  exists k : Figure.call,
    SegmentArrow.draw self T style = Ok k /\
    Figure.displacement_of k = Some (0, 0).
Proof.
  intros Hstyle Heq. unfold SegmentArrow.draw.
  rewrite call_unbound by exact Hstyle. cbv zeta.
  eexists. split; [reflexivity|]. cbn [Figure.displacement_of].
  rewrite Heq. do 2 f_equal; ring.
Qed.

(** C8, as the code has it.  An arrow whose tail and head coincide is
    constructed, placed and drawn like any other: the constructor returns
    it, [xform] returns an arrow whose tail and head coincide again, and
    [draw] issues the [fig.arrow] call with the displacement (0, 0). *)
Theorem SegmentArrow_zero_length_is_drawn (p : Point)
    (kwargs : gmap string value) (T : Transform.t)
    (style : gmap string value) :
  unbound ["self"; "tail"; "head"] kwargs ->
  unbound ["self"; "fig"; "transform"] style ->
  exists (a : SegmentArrow.t) (k : Figure.call),
    SegmentArrow.new p p kwargs = Ok a /\
    SegmentArrow.tail a = p /\ SegmentArrow.head a = p /\
    SegmentArrow.draw a T style = Ok k /\
    Figure.displacement_of k = Some (0, 0) /\
    (unbound ["self"; "transform"; "tail"; "head"] style ->
     exists a' : SegmentArrow.t,
       SegmentArrow.xform a T style = Ok a' /\
       SegmentArrow.tail a' = SegmentArrow.head a').
Proof.
  intros Hkw Hstyle. unfold SegmentArrow.new.
  rewrite call_unbound by exact Hkw.
  destruct (SegmentArrow_draw_zero_displacement
              (SegmentArrow.__init__ p p kwargs) T style Hstyle eq_refl)
    as (k & Hdraw & Hdisp).
  eexists. exists k. split; [reflexivity|].
  split; [reflexivity|]. split; [reflexivity|].
  split; [exact Hdraw|]. split; [exact Hdisp|].
  intros Hx. eexists. split; [by apply SegmentArrow_xform_Ok|].
  reflexivity.
Qed.

Lemma SegmentArrow_zero_length_is_drawn_witness :
  exists (a : SegmentArrow.t) (k : Figure.call),
    SegmentArrow.new (util.mkPoint 1 1) (util.mkPoint 1 1) ∅ = Ok a /\
    SegmentArrow.tail a = util.mkPoint 1 1 /\
    SegmentArrow.head a = util.mkPoint 1 1 /\
    SegmentArrow.draw a identity ∅ = Ok k /\
    Figure.displacement_of k = Some (0, 0) /\
    (unbound ["self"; "transform"; "tail"; "head"] ∅ ->
     exists a' : SegmentArrow.t,
       SegmentArrow.xform a identity ∅ = Ok a' /\
       SegmentArrow.tail a' = SegmentArrow.head a').
Proof.
  apply (SegmentArrow_zero_length_is_drawn (util.mkPoint 1 1) ∅ identity ∅).
  - repeat constructor.
  - repeat constructor.
Defined.

(** C8 as stated fails: the arrow from (0, 0) to (0, 0) is constructed
    without a [DegenerateGeometry] error, and drawing it hands the figure an
    arrow of displacement (0, 0). *)
Lemma SegmentArrow_zero_length_no_error :
  SegmentArrow.new (util.mkPoint 0 0) (util.mkPoint 0 0) ∅ <>
    Raise DegenerateGeometry /\
  exists k : Figure.call,
    SegmentArrow.draw
      (SegmentArrow.__init__ (util.mkPoint 0 0) (util.mkPoint 0 0) ∅)
      identity ∅ = Ok k /\
    Figure.displacement_of k = Some (0, 0).
Proof.
  split; [discriminate|].
  apply SegmentArrow_draw_zero_displacement; [repeat constructor|].
  reflexivity.
Qed.

(** ** Placing circles and arcs *)

Lemma SegmentCircle_xform_Ok (self : SegmentCircle.t) (T : Transform.t)
    (style : gmap string value) :
  unbound ["self"; "transform"; "center"; "radius"] style ->
  SegmentCircle.xform self T style =
    Ok (SegmentCircle.__init__
          (Transform.transform T (SegmentCircle.center self)
             (SegmentCircle.endref self))
          (SegmentCircle.radius self)
          (update (SegmentCircle.params self) style)).
Proof.
  intros H. unfold SegmentCircle.xform, SegmentCircle.new.
  rewrite call_unbound by unbound_among H.
  cbv zeta. rewrite call_unbound; [done|].
  apply unbound_update.
  - unfold SegmentCircle.params. unbound_literal.
  - unbound_among H.
Qed.

(** Whatever the style, a circle that [xform] returns has the radius of the
    original. *)
Lemma SegmentCircle_xform_returned_radius (self c' : SegmentCircle.t)
    (T : Transform.t) (style : gmap string value) :
  SegmentCircle.xform self T style = Ok c' ->
  SegmentCircle.radius c' = SegmentCircle.radius self.
Proof.
  unfold SegmentCircle.xform, SegmentCircle.new. intros H.
  apply call_Ok in H as [_ H]. cbv zeta in H.
  apply call_Ok in H as [_ H]. injection H as <-. reflexivity.
Qed.

(** C9.  The circle that [xform] returns has the radius of the original,
    whatever the zoom factor of the transform, while [draw] hands the
    radius times the zoom factor to the figure. *)
Theorem SegmentCircle_xform_keeps_radius (self : SegmentCircle.t)
    (T : Transform.t) (style : gmap string value) :
  unbound ["self"; "transform"; "center"; "radius"] style ->
  unbound ["self"; "fig"; "transform"] style ->
  exists (c' : SegmentCircle.t) (k : Figure.call),
    SegmentCircle.xform self T style = Ok c' /\
    SegmentCircle.radius c' = SegmentCircle.radius self /\
    SegmentCircle.draw self T style = Ok k /\
    Figure.radius_of k =
      Some (Transform.zoom T * SegmentCircle.radius self).
Proof.
  intros Hx Hd. eexists. eexists.
  split; [by apply SegmentCircle_xform_Ok|].
  split; [reflexivity|].
  unfold SegmentCircle.draw. rewrite call_unbound by exact Hd.
  cbv zeta. split; reflexivity.
Qed.

Lemma SegmentCircle_xform_keeps_radius_witness :
  exists (c' : SegmentCircle.t) (k : Figure.call),
    SegmentCircle.xform dot doubling ∅ = Ok c' /\
    SegmentCircle.radius c' = SegmentCircle.radius dot /\
    SegmentCircle.draw dot doubling ∅ = Ok k /\
    Figure.radius_of k =
      Some (Transform.zoom doubling * SegmentCircle.radius dot).
Proof.
  apply (SegmentCircle_xform_keeps_radius dot doubling ∅).
  - repeat constructor.
  - repeat constructor.
Defined.

Lemma SegmentArc_xform_Ok (self : SegmentArc.t) (T : Transform.t)
    (style : gmap string value) :
  unbound ["self"; "transform"; "center"; "width"; "height"; "angle";
           "theta1"; "theta2"] style ->
  SegmentArc.xform self T style =
    Ok (SegmentArc.__init__
          (Transform.transform T (SegmentArc.center self) VNone)
          (SegmentArc.width self * Transform.zoom T)
          (SegmentArc.height self * Transform.zoom T)
          (Some (SegmentArc.theta1 self)) (Some (SegmentArc.theta2 self))
          (Some (SegmentArc.angle self + Transform.theta T))
          (update (SegmentArc.params self) style)).
Proof.
  intros H. unfold SegmentArc.xform, SegmentArc.new.
  rewrite call_unbound by unbound_among H.
  cbv zeta. rewrite call_unbound; [done|].
  apply unbound_update.
  - unfold SegmentArc.params. unbound_literal.
  - unbound_among H.
Qed.

(** The arrow tag of a transformed arc is the one the style gives, if any;
    the tag of the original plays no part. *)
Lemma SegmentArc_xform_arrow (self : SegmentArc.t) (T : Transform.t)
    (style : gmap string value) :
  unbound ["self"; "transform"; "center"; "width"; "height"; "angle";
           "theta1"; "theta2"] style ->
  exists a' : SegmentArc.t,
    SegmentArc.xform self T style = Ok a' /\
    SegmentArc.arrow a' = get style "arrow" VNone.
Proof.
  intros H. eexists. split; [by apply SegmentArc_xform_Ok|].
  cbn [SegmentArc.__init__ SegmentArc.arrow]. unfold get at 1, update.
  rewrite lookup_union_l; [reflexivity|].
  unfold SegmentArc.params. by vm_compute.
Qed.

(** C10.  The arc that [xform] returns has no arrow tag, whatever the tag
    of the original: [xform] does not pass the tag on. *)
Theorem SegmentArc_xform_drops_arrow (self : SegmentArc.t)
    (T : Transform.t) (style : gmap string value) :
  unbound ["self"; "transform"; "center"; "width"; "height"; "angle";
           "theta1"; "theta2"] style ->
  style !! "arrow" = None ->
  exists a' : SegmentArc.t,
    SegmentArc.xform self T style = Ok a' /\
    SegmentArc.arrow a' = VNone.
Proof.
  intros H Harrow.
  destruct (SegmentArc_xform_arrow self T style H) as (a' & Hx & Ha).
  exists a'. split; [exact Hx|].
  rewrite Ha. unfold get. by rewrite Harrow.
Qed.

Lemma SegmentArc_xform_drops_arrow_witness :
  SegmentArc.arrow cw_arc = VStr "cw" /\
  exists a' : SegmentArc.t,
    SegmentArc.xform cw_arc doubling ∅ = Ok a' /\
    SegmentArc.arrow a' = VNone.
Proof.
  split; [reflexivity|].
  apply (SegmentArc_xform_drops_arrow cw_arc doubling ∅).
  - repeat constructor.
  - reflexivity.
Defined.

(** ** The bounding box of an arc *)

Lemma fold_Rmin_le_init (l : list R) (a : R) : fold_left Rmin l a <= a.
Proof.
  revert a. induction l as [|b l IH]; intros a; cbn; [lra|].
  etransitivity; [apply IH|apply Rmin_l].
Qed.

Lemma fold_Rmin_le_In (l : list R) (a x : R) :
  In x l -> fold_left Rmin l a <= x.
Proof.
  revert a. induction l as [|b l IH]; intros a; cbn; [tauto|].
  intros [->|Hin]; [|by apply IH].
  etransitivity; [apply fold_Rmin_le_init|apply Rmin_r].
Qed.

Lemma fold_Rmin_glb (l : list R) (a m : R) :
  m <= a -> (forall x, In x l -> m <= x) -> m <= fold_left Rmin l a.
Proof.
  revert a. induction l as [|b l IH]; intros a Ha Hl; cbn; [done|].
  apply IH.
  - apply Rmin_glb; [done|]. apply Hl. by left.
  - intros x Hx. apply Hl. by right.
Qed.

Lemma fold_Rmax_ge_init (l : list R) (a : R) : a <= fold_left Rmax l a.
Proof.
  revert a. induction l as [|b l IH]; intros a; cbn; [lra|].
  etransitivity; [apply Rmax_l|apply IH].
Qed.

Lemma fold_Rmax_ge_In (l : list R) (a x : R) :
  In x l -> x <= fold_left Rmax l a.
Proof.
  revert a. induction l as [|b l IH]; intros a; cbn; [tauto|].
  intros [->|Hin]; [|by apply IH].
  etransitivity; [apply Rmax_r|apply fold_Rmax_ge_init].
Qed.

Lemma fold_Rmax_lub (l : list R) (a m : R) :
  a <= m -> (forall x, In x l -> x <= m) -> fold_left Rmax l a <= m.
Proof.
  revert a. induction l as [|b l IH]; intros a Ha Hl; cbn; [done|].
  apply IH.
  - apply Rmax_lub; [done|]. apply Hl. by left.
  - intros x Hx. apply Hl. by right.
Qed.

(** [min] returns an element that is below all elements. *)
Lemma min_of_least (xs : list R) (m : R) :
  In m xs -> (forall x, In x xs -> m <= x) -> min_of xs = Some m.
Proof.
  destruct xs as [|a l]; cbn; [tauto|]. intros Hin Hle. f_equal.
  apply Rle_antisym.
  - destruct Hin as [->|Hin];
      [apply fold_Rmin_le_init|by apply fold_Rmin_le_In].
  - apply fold_Rmin_glb; [apply Hle; by left|].
    intros x Hx. apply Hle. by right.
Qed.

(** [max] returns an element that is above all elements. *)
Lemma max_of_greatest (xs : list R) (m : R) :
  In m xs -> (forall x, In x xs -> x <= m) -> max_of xs = Some m.
Proof.
  destruct xs as [|a l]; cbn; [tauto|]. intros Hin Hle. f_equal.
  apply Rle_antisym.
  - apply fold_Rmax_lub; [apply Hle; by left|].
    intros x Hx. apply Hle. by right.
  - destruct Hin as [->|Hin];
      [apply fold_Rmax_ge_init|by apply fold_Rmax_ge_In].
Qed.

(** [max] lies between any element and any upper bound of the list. *)
Lemma max_of_between (xs : list R) (lo hi : R) :
  In lo xs -> (forall x, In x xs -> x <= hi) ->
  exists m : R, max_of xs = Some m /\ lo <= m <= hi.
Proof.
  destruct xs as [|a l]; cbn; [tauto|]. intros Hin Hle.
  eexists. split; [reflexivity|]. split.
  - destruct Hin as [->|Hin];
      [apply fold_Rmax_ge_init|by apply fold_Rmax_ge_In].
  - apply fold_Rmax_lub; [apply Hle; by left|].
    intros x Hx. apply Hle. by right.
Qed.

Lemma min_of_is_Some (xs : list R) :
  xs <> [] -> exists m : R, min_of xs = Some m.
Proof. destruct xs; [done|]. intros _. by eexists. Qed.

Lemma max_of_is_Some (xs : list R) :
  xs <> [] -> exists m : R, max_of xs = Some m.
Proof. destruct xs; [done|]. intros _. by eexists. Qed.

Lemma map_zip_maps {A B C : Type} (f : R -> A) (g : R -> B)
    (h : A * B -> C) (l : list R) :
  List.map h (zip (List.map f l) (List.map g l)) =
  List.map (fun t => h (f t, g t)) l.
Proof. induction l as [|t l IH]; cbn; [done|]. by rewrite IH. Qed.

(** The cosine near zero: cos x >= 1 - x^2 / 2. *)
Lemma cos_ge_parabola (x : R) : 0 <= x <= PI -> 1 - x * x / 2 <= cos x.
Proof.
  intros [H0 Hpi].
  replace x with (2 * (x / 2)) at 3 by lra.
  rewrite cos_2a_sin.
  assert (0 <= sin (x / 2)) as Hs0 by (apply sin_ge_0; lra).
  assert (sin (x / 2) <= x / 2) as Hsx.
  { destruct (Req_dec_T x 0) as [->|Hne].
    - replace (0 / 2) with 0 by lra. rewrite sin_0. lra.
    - left. apply sin_lt_x. lra. }
  nra.
Qed.

Lemma linspace_length (a b : R) (n : nat) :
  length (util.linspace a b n) = n.
Proof. unfold util.linspace. by rewrite List.length_map, List.length_seq. Qed.

Lemma linspace_In (a b : R) (n i : nat) :
  (i < n)%nat ->
  In (a + (b - a) / INR (n - 1) * INR i) (util.linspace a b n).
Proof.
  intros Hi. unfold util.linspace. apply in_map_iff.
  exists i. split; [reflexivity|]. apply in_seq. lia.
Qed.

Lemma linspace_first (a b : R) (n : nat) :
  (0 < n)%nat -> In a (util.linspace a b n).
Proof.
  intros Hn. pose proof (linspace_In a b n 0 Hn) as H.
  cbn [INR] in H. by rewrite Rmult_0_r, Rplus_0_r in H.
Qed.

Lemma linspace_last (a b : R) (n : nat) :
  (2 <= n)%nat -> In b (util.linspace a b n).
Proof.
  intros Hn. pose proof (linspace_In a b n (n - 1) ltac:(lia)) as H.
  assert (INR (n - 1) <> 0) as Hne by (apply not_0_INR; lia).
  replace (a + (b - a) / INR (n - 1) * INR (n - 1)) with b in H
    by (field; exact Hne).
  exact H.
Qed.

Lemma linspace_between (a b : R) (n : nat) (t : R) :
  (2 <= n)%nat -> a <= b -> In t (util.linspace a b n) -> a <= t <= b.
Proof.
  intros Hn Hab Hin. unfold util.linspace in Hin.
  apply in_map_iff in Hin as (i & <- & Hi). apply in_seq in Hi.
  assert (0 < INR (n - 1)) as Hpos by (apply lt_0_INR; lia).
  assert (0 <= INR i) as Hi0 by apply pos_INR.
  assert (INR i <= INR (n - 1)) as Hi1 by (apply le_INR; lia).
  set (N := INR (n - 1)) in *. set (k := INR i) in *.
  assert ((b - a) / N * N = b - a) as HN by (field; lra).
  assert (0 <= (b - a) / N) as Hs.
  { apply Rmult_le_pos; [lra|]. left. by apply Rinv_0_lt_compat. }
  nra.
Qed.

(** [math.atan2] on the two half-planes the half circle meets. *)
Lemma atan2_right (y x : R) : 0 < x -> atan2 y x = atan (y / x).
Proof. intros H. unfold atan2. by destruct (Rlt_dec 0 x). Qed.

Lemma atan2_upper_left (y x : R) :
  x < 0 -> 0 <= y -> atan2 y x = atan (y / x) + PI.
Proof.
  intros Hx Hy. unfold atan2.
  destruct (Rlt_dec 0 x); [lra|].
  destruct (Rlt_dec x 0); [|lra].
  by destruct (Rle_dec 0 y).
Qed.

Lemma sweep_half_circle (fuel : nat) :
  SegmentArc.sweep (S fuel) half_circle = Some (0, PI).
Proof.
  unfold SegmentArc.sweep, half_circle.
  cbn [SegmentArc.__init__ SegmentArc.theta1 SegmentArc.theta2
       SegmentArc.width SegmentArc.height default from_option Datatypes.id].
  replace (util.radians 0) with 0 by (unfold util.radians; lra).
  replace (util.radians 180) with PI by (unfold util.radians; lra).
  rewrite sin_0, cos_0, sin_PI, cos_PI.
  rewrite atan2_right by lra.
  rewrite atan2_upper_left by lra.
  replace (2 * 0 / (2 * 1)) with 0 by lra.
  replace (2 * 0 / (2 * -1)) with 0 by lra.
  rewrite atan_0, Rplus_0_l. cbn [SegmentArc.while_below].
  pose proof PI_RGT_0. destruct (Rlt_dec PI 0); [lra|reflexivity].
Qed.

(** [get_bbox] in terms of the sampled parameters. *)
Lemma get_bbox_of_samples (fuel : nat) (self : SegmentArc.t) (t : list R) :
  SegmentArc.samples fuel self = Some t ->
  SegmentArc.get_bbox fuel self =
    let cosphi := cos (util.radians (SegmentArc.angle self)) in
    let sinphi := sin (util.radians (SegmentArc.angle self)) in
    let rx := SegmentArc.width self / 2 in
    let ry := SegmentArc.height self / 2 in
    let xx :=
      List.map
        (fun u => util.x (SegmentArc.center self)
                  + rx * cos u * cosphi - ry * sin u * sinphi) t in
    let yy :=
      List.map
        (fun u => util.y (SegmentArc.center self)
                  + rx * cos u * sinphi + ry * sin u * cosphi) t in
    match min_of xx, min_of yy, max_of xx, max_of yy with
    | Some x0, Some y0, Some x1, Some y1 => Some (mkBBox x0 y0 x1 y1)
    | _, _, _, _ => None
    end.
Proof.
  intros H. unfold SegmentArc.get_bbox. rewrite H. cbv zeta.
  by rewrite !map_zip_maps.
Qed.

Lemma samples_half_circle (fuel : nat) :
  SegmentArc.samples (S fuel) half_circle = Some (util.linspace 0 PI 500).
Proof. unfold SegmentArc.samples. by rewrite sweep_half_circle. Qed.

(** The sample nearest the top of the half circle is within 1e-5 of it. *)
Lemma sin_sample_249 :
  1 - 1 / 100000 <= sin (0 + (PI - 0) / INR (500 - 1) * INR 249).
Proof.
  replace (INR (500 - 1)) with 499 by (rewrite INR_IZR_INZ; reflexivity).
  replace (INR 249) with 249 by (rewrite INR_IZR_INZ; reflexivity).
  rewrite <- cos_shift.
  replace (PI / 2 - (0 + (PI - 0) / 499 * 249)) with (PI / 998) by field.
  pose proof PI_RGT_0 as Hpos. pose proof PI_4 as H4.
  pose proof (cos_ge_parabola (PI / 998) ltac:(lra)) as Hcos.
  nra.
Qed.

(** C6.  The bounding box of the arc with centre (0, 0), width 2, height 2,
    theta1 = 0 and theta2 = 180 is (-1, 0, 1, ymax) with ymax within 1e-5 of
    1.  It is the minimum and maximum over 500 samples of the ellipse,
    taken across a sweep whose end is not below its start. *)
Theorem SegmentArc_get_bbox_half_circle (fuel : nat) :
  exists (t1 t2 : R) (t : list R) (bb : BBox),
    SegmentArc.sweep (S fuel) half_circle = Some (t1, t2) /\
    t1 <= t2 /\
    SegmentArc.samples (S fuel) half_circle = Some t /\
    length t = 500%nat /\
    SegmentArc.get_bbox (S fuel) half_circle = Some bb /\
    xmin bb = -1 /\
    ymin bb = 0 /\
    xmax bb = 1 /\
    1 - 1 / 100000 <= ymax bb <= 1.
Proof.
  pose proof PI_RGT_0 as Hpi.
  set (ts := util.linspace 0 PI 500).
  assert (forall u, In u ts -> 0 <= u <= PI) as Hrange.
  { intros u Hu. apply (linspace_between 0 PI 500); [lia|lra|exact Hu]. }
  assert (forall u : R,
            0 + 2 / 2 * cos u * cos (util.radians 0)
              - 2 / 2 * sin u * sin (util.radians 0) = cos u) as Hx.
  { intros u. replace (util.radians 0) with 0
      by (unfold util.radians; lra).
    rewrite cos_0, sin_0. lra. }
  assert (forall u : R,
            0 + 2 / 2 * cos u * sin (util.radians 0)
              + 2 / 2 * sin u * cos (util.radians 0) = sin u) as Hy.
  { intros u. replace (util.radians 0) with 0
      by (unfold util.radians; lra).
    rewrite cos_0, sin_0. lra. }
  destruct (max_of_between (List.map sin ts)
              (sin (0 + (PI - 0) / INR (500 - 1) * INR 249)) 1)
    as (m & Hm & Hlo & Hhi).
  { apply in_map. apply linspace_In. lia. }
  { intros x Hin. apply in_map_iff in Hin as (u & <- & _).
    apply SIN_bound. }
  exists 0, PI, ts, (mkBBox (-1) 0 1 m).
  split; [apply sweep_half_circle|]. split; [lra|].
  split; [apply samples_half_circle|].
  split; [apply linspace_length|]. split.
  - rewrite (get_bbox_of_samples _ _ _ (samples_half_circle fuel)).
    cbv zeta. unfold half_circle.
    cbn [SegmentArc.__init__ SegmentArc.center SegmentArc.width
         SegmentArc.height SegmentArc.angle util.x util.y default
         from_option Datatypes.id].
    rewrite (List.map_ext _ _ Hx), (List.map_ext _ _ Hy). fold ts.
    rewrite (min_of_least (List.map cos ts) (-1)).
    2:{ rewrite <- cos_PI. apply in_map, linspace_last. lia. }
    2:{ intros x Hin. apply in_map_iff in Hin as (u & <- & _).
        apply COS_bound. }
    rewrite (min_of_least (List.map sin ts) 0).
    2:{ rewrite <- sin_0 at 1. apply in_map, linspace_first. lia. }
    2:{ intros x Hin. apply in_map_iff in Hin as (u & <- & Hu).
        apply sin_ge_0; by apply Hrange. }
    rewrite (max_of_greatest (List.map cos ts) 1).
    2:{ rewrite <- cos_0. apply in_map, linspace_first. lia. }
    2:{ intros x Hin. apply in_map_iff in Hin as (u & <- & _).
        apply COS_bound. }
    by rewrite Hm.
  - cbn [xmin ymin xmax ymax]. repeat split; try reflexivity; [|exact Hhi].
    etransitivity; [apply sin_sample_249|exact Hlo].
Qed.

(** ** The loop of [get_bbox] ends for every arc *)

Lemma atan2_bound (y x : R) : - PI < atan2 y x <= PI.
Proof.
  pose proof PI_RGT_0 as Hpi.
  pose proof (atan_bound (y / x)) as [Hlo Hhi].
  unfold atan2.
  destruct (Rlt_dec 0 x) as [Hx|Hx]; [lra|].
  destruct (Rlt_dec x 0) as [Hx'|Hx'].
  - assert (/ x < 0) as Hinv by (by apply Rinv_lt_0_compat).
    destruct (Rle_dec 0 y) as [Hy|Hy].
    + assert (atan (y / x) <= 0) as Hat.
      { destruct (Req_dec_T y 0) as [->|Hne].
        - replace (0 / x) with 0 by (unfold Rdiv; ring).
          rewrite atan_0. lra.
        - left. rewrite <- atan_0. apply atan_increasing.
          unfold Rdiv. nra. }
      lra.
    + assert (0 < atan (y / x)) as Hat.
      { rewrite <- atan_0. apply atan_increasing. unfold Rdiv. nra. }
      lra.
  - destruct (Rlt_dec 0 y); [lra|]. destruct (Rlt_dec y 0); lra.
Qed.

(** Two tests of the loop condition are enough: both parameters are values
    of [atan2], so one turn lifts [t2] above [t1]. *)
Lemma while_below_atan2 (y1 x1 y2 x2 : R) :
  exists t2 : R,
    SegmentArc.while_below 2 (atan2 y1 x1) (atan2 y2 x2) = Some t2 /\
    atan2 y1 x1 <= t2.
Proof.
  pose proof PI_RGT_0 as Hpi.
  pose proof (atan2_bound y1 x1) as H1.
  pose proof (atan2_bound y2 x2) as H2.
  cbn [SegmentArc.while_below].
  destruct (Rlt_dec (atan2 y2 x2) (atan2 y1 x1)) as [Hlt|Hge].
  - destruct (Rlt_dec (atan2 y2 x2 + 2 * PI) (atan2 y1 x1)); [lra|].
    eexists. split; [reflexivity|lra].
  - eexists. split; [reflexivity|lra].
Qed.

Lemma sweep_total (self : SegmentArc.t) :
  exists t1 t2 : R,
    SegmentArc.sweep 2 self = Some (t1, t2) /\ t1 <= t2.
Proof.
  unfold SegmentArc.sweep.
  match goal with
  | |- context [SegmentArc.while_below 2 (atan2 ?y1 ?x1) (atan2 ?y2 ?x2)] =>
      destruct (while_below_atan2 y1 x1 y2 x2) as (t2 & -> & Hle)
  end.
  by eexists _, _.
Qed.

(** X5.  With a fuel of 2, [get_bbox] returns a box for every arc: the
    loop leaves the sweep [t1 <= t2], the parameter is sampled at the 500
    values of [linspace(t1, t2)], and the four bounds of the box are the
    minimum and the maximum of the x and of the y coordinates of the
    ellipse at those samples. *)
Theorem get_bbox_total (self : SegmentArc.t) :
  let phi := util.radians (SegmentArc.angle self) in
  let fx := fun u : R =>
    util.x (SegmentArc.center self)
    + SegmentArc.width self / 2 * cos u * cos phi
    - SegmentArc.height self / 2 * sin u * sin phi in
  let fy := fun u : R =>
    util.y (SegmentArc.center self)
    + SegmentArc.width self / 2 * cos u * sin phi
    + SegmentArc.height self / 2 * sin u * cos phi in
  exists (t1 t2 : R) (t : list R) (bb : BBox),
    SegmentArc.sweep 2 self = Some (t1, t2) /\
    t1 <= t2 /\
    t = util.linspace t1 t2 500 /\
    SegmentArc.samples 2 self = Some t /\
    length t = 500%nat /\
    SegmentArc.get_bbox 2 self = Some bb /\
    min_of (List.map fx t) = Some (xmin bb) /\
    min_of (List.map fy t) = Some (ymin bb) /\
    max_of (List.map fx t) = Some (xmax bb) /\
    max_of (List.map fy t) = Some (ymax bb).
Proof.
  cbv zeta.
  destruct (sweep_total self) as (t1 & t2 & Hsweep & Hle).
  assert (SegmentArc.samples 2 self = Some (util.linspace t1 t2 500))
    as Hsamples.
  { unfold SegmentArc.samples. by rewrite Hsweep. }
  pose proof (linspace_length t1 t2 500) as Hlen.
  rewrite (get_bbox_of_samples _ _ _ Hsamples). cbv zeta.
  set (ts := util.linspace t1 t2 500) in *.
  assert (forall f : R -> R, List.map f ts <> []) as Hne.
  { intros f Hnil. apply (f_equal (@length R)) in Hnil.
    rewrite List.length_map, Hlen in Hnil. discriminate. }
  set (phi := util.radians (SegmentArc.angle self)).
  set (fx := fun u : R =>
               util.x (SegmentArc.center self)
               + SegmentArc.width self / 2 * cos u * cos phi
               - SegmentArc.height self / 2 * sin u * sin phi).
  set (fy := fun u : R =>
               util.y (SegmentArc.center self)
               + SegmentArc.width self / 2 * cos u * sin phi
               + SegmentArc.height self / 2 * sin u * cos phi).
  destruct (min_of_is_Some (List.map fx ts) (Hne fx)) as (x0 & Hx0).
  destruct (max_of_is_Some (List.map fx ts) (Hne fx)) as (x1 & Hx1).
  destruct (min_of_is_Some (List.map fy ts) (Hne fy)) as (y0 & Hy0).
  destruct (max_of_is_Some (List.map fy ts) (Hne fy)) as (y1 & Hy1).
  rewrite Hx0, Hx1, Hy0, Hy1.
  exists t1, t2, ts, (mkBBox x0 y0 x1 y1).
  split; [exact Hsweep|]. split; [exact Hle|]. split; [reflexivity|].
  split; [exact Hsamples|]. split; [exact Hlen|]. split; [reflexivity|].
  cbn [xmin ymin xmax ymax]. done.
Qed.

(** ** Further properties of the same code *)

(** X1.  [draw] uses a line's own colour, line width, line style, cap style
    and join style whenever they are truthy, and its own z-order whenever
    it is not [None], whatever the style holds. *)
Theorem Segment_draw_own_style_first (self : Segment.t) (T : Transform.t)
    (style : gmap string value) :
  unbound ["self"; "fig"; "transform"] style ->
  exists (xs ys : list R)
         (color fill ls lw capstyle joinstyle zorder : value),
    Segment.draw self T style =
      Ok (Figure.plot xs ys color fill ls lw capstyle joinstyle zorder) /\
    (truthy (Segment.color self) = true -> color = Segment.color self) /\
    (truthy (Segment.ls self) = true -> ls = Segment.ls self) /\
    (truthy (Segment.lw self) = true -> lw = Segment.lw self) /\
    (truthy (Segment.capstyle self) = true ->
       capstyle = Segment.capstyle self) /\
    (truthy (Segment.joinstyle self) = true ->
       joinstyle = Segment.joinstyle self) /\
    (Segment.zorder self <> VNone -> zorder = Segment.zorder self).
Proof.
  intros H. unfold Segment.draw. rewrite call_unbound by exact H.
  cbv zeta. do 9 eexists. split; [reflexivity|].
  unfold Segment.draw_color, if_truthy, if_not_None.
  repeat split; intros Hown; try (by rewrite Hown).
  by rewrite decide_False.
Qed.

Lemma Segment_draw_own_style_first_witness :
  exists (xs ys : list R)
         (color fill ls lw capstyle joinstyle zorder : value),
    Segment.draw red_line identity {[ "color" := VStr "blue" ]} =
      Ok (Figure.plot xs ys color fill ls lw capstyle joinstyle zorder) /\
    (truthy (Segment.color red_line) = true ->
       color = Segment.color red_line) /\
    (truthy (Segment.ls red_line) = true -> ls = Segment.ls red_line) /\
    (truthy (Segment.lw red_line) = true -> lw = Segment.lw red_line) /\
    (truthy (Segment.capstyle red_line) = true ->
       capstyle = Segment.capstyle red_line) /\
    (truthy (Segment.joinstyle red_line) = true ->
       joinstyle = Segment.joinstyle red_line) /\
    (Segment.zorder red_line <> VNone -> zorder = Segment.zorder red_line).
Proof.
  apply (Segment_draw_own_style_first red_line identity
           {[ "color" := VStr "blue" ]}).
  unbound_literal.
Defined.

(** X2.  Flipping a segment of any class twice gives the segment back. *)
Theorem doflip_involutive (P : segment) :
  documented_tags P -> doflip (doflip P) = P.
Proof.
  intros Htags. destruct P as [s|s|s|s|s|s]; destruct s; cbn in *; f_equal.
  - unfold Segment.doflip; cbn. f_equal. apply flip_path_involutive.
  - unfold SegmentText.doflip; cbn. f_equal. apply flip_involutive.
  - unfold SegmentPoly.doflip; cbn. f_equal. apply flip_path_involutive.
  - unfold SegmentCircle.doflip; cbn. f_equal. apply flip_involutive.
  - unfold SegmentArrow.doflip; cbn. f_equal; apply flip_involutive.
  - unfold SegmentArc.doflip; cbn. f_equal.
    + apply flip_involutive.
    + ring.
    + ring.
    + by apply swap_arrow_involutive.
Qed.

Lemma doflip_involutive_witness :
  documented_tags (Arc cw_arc) /\ doflip (doflip (Arc cw_arc)) = Arc cw_arc.
Proof.
  assert (documented_tags (Arc cw_arc)) as Htags.
  { cbn. right. left. reflexivity. }
  split; [exact Htags|].
  exact (doflip_involutive (Arc cw_arc) Htags).
Defined.

(** X3.  The transform with no rotation, zoom 1 and both shifts (0, 0)
    leaves every point where it is, and [transform_array] applies
    [transform] to each point in order. *)
Theorem identity_transform (p : Point) (pts : list Point) :
  Transform.transform identity p VNone = p /\
  Transform.transform_array identity pts = pts /\
  forall (T : Transform.t) (i : nat),
    Transform.transform_array T pts !! i =
      (fun q => Transform.transform T q VNone) <$> (pts !! i).
Proof.
  assert (forall q : Point, Transform.transform identity q VNone = q) as Hid.
  { intros [a b]. unfold Transform.transform, identity.
    cbn [Transform.localshift Transform.zoom Transform.theta
         Transform.shift default from_option Datatypes.id].
    unfold util.add, util.mul, util.rotate. cbn [util.x util.y].
    replace (util.radians 0) with 0 by (unfold util.radians; lra).
    rewrite cos_0, sin_0. f_equal; ring. }
  split; [apply Hid|]. split.
  - unfold Transform.transform_array.
    induction pts as [|q pts IH]; cbn; [done|]. by rewrite Hid, IH.
  - intros T i. unfold Transform.transform_array.
    apply (list_lookup_fmap (fun q => Transform.transform T q VNone)).
Qed.

(** X4.  Mirroring a circle or an arrow turns the reference tag 'start'
    into 'end' and 'end' into 'start'; flipping leaves the tag alone. *)
Theorem doreverse_swaps_endref (c : SegmentCircle.t) (a : SegmentArrow.t)
    (centerx : R) :
  (SegmentCircle.endref c = VStr "start" ->
     SegmentCircle.endref (SegmentCircle.doreverse c centerx) = VStr "end") /\
  (SegmentCircle.endref c = VStr "end" ->
     SegmentCircle.endref (SegmentCircle.doreverse c centerx) =
       VStr "start") /\
  (SegmentArrow.endref a = VStr "start" ->
     SegmentArrow.endref (SegmentArrow.doreverse a centerx) = VStr "end") /\
  (SegmentArrow.endref a = VStr "end" ->
     SegmentArrow.endref (SegmentArrow.doreverse a centerx) = VStr "start") /\
  SegmentCircle.endref (SegmentCircle.doflip c) = SegmentCircle.endref c /\
  SegmentArrow.endref (SegmentArrow.doflip a) = SegmentArrow.endref a.
Proof.
  cbn [SegmentCircle.doreverse SegmentCircle.endref SegmentCircle.doflip
       SegmentArrow.doreverse SegmentArrow.endref SegmentArrow.doflip].
  repeat split; try reflexivity; intros ->; reflexivity.
Qed.

(** ** Bounding boxes of paths, circles and arrows *)

Lemma fold_Rmin_In (l : list R) (a : R) : In (fold_left Rmin l a) (a :: l).
Proof.
  revert a. induction l as [|b l IH]; intros a; cbn; [by left|].
  destruct (IH (Rmin a b)) as [Heq|Hin]; [|by right; right].
  rewrite <- Heq. unfold Rmin. destruct (Rle_dec a b); [by left|].
  right. by left.
Qed.

Lemma fold_Rmax_In (l : list R) (a : R) : In (fold_left Rmax l a) (a :: l).
Proof.
  revert a. induction l as [|b l IH]; intros a; cbn; [by left|].
  destruct (IH (Rmax a b)) as [Heq|Hin]; [|by right; right].
  rewrite <- Heq. unfold Rmax. destruct (Rle_dec a b); [|by left].
  right. by left.
Qed.

Lemma min_of_Some (xs : list R) (m : R) :
  min_of xs = Some m <-> In m xs /\ forall x, In x xs -> m <= x.
Proof.
  split; [|intros [Hin Hle]; by apply min_of_least].
  destruct xs as [|a l]; cbn; [discriminate|]. intros [= <-]. split.
  - apply fold_Rmin_In.
  - intros x [<-|Hin]; [apply fold_Rmin_le_init|by apply fold_Rmin_le_In].
Qed.

Lemma max_of_Some (xs : list R) (m : R) :
  max_of xs = Some m <-> In m xs /\ forall x, In x xs -> x <= m.
Proof.
  split; [|intros [Hin Hle]; by apply max_of_greatest].
  destruct xs as [|a l]; cbn; [discriminate|]. intros [= <-]. split.
  - apply fold_Rmax_In.
  - intros x [<-|Hin]; [apply fold_Rmax_ge_init|by apply fold_Rmax_ge_In].
Qed.

Lemma points_bbox_Some (pts : list Point) (bb : BBox) :
  points_bbox pts = Some bb <->
  min_of (List.map util.x pts) = Some (xmin bb) /\
  min_of (List.map util.y pts) = Some (ymin bb) /\
  max_of (List.map util.x pts) = Some (xmax bb) /\
  max_of (List.map util.y pts) = Some (ymax bb).
Proof.
  unfold points_bbox. cbv zeta. destruct bb as [x0 y0 x1 y1]. cbn.
  destruct (min_of (List.map util.x pts)) as [a|]; [|split; [done|]; intros [? _]; done].
  destruct (min_of (List.map util.y pts)) as [b|];
    [|split; [done|]; intros (_ & ? & _); done].
  destruct (max_of (List.map util.x pts)) as [c|];
    [|split; [done|]; intros (_ & _ & ? & _); done].
  destruct (max_of (List.map util.y pts)) as [d|];
    [|split; [done|]; intros (_ & _ & _ & ?); done].
  split; [intros [= -> -> -> ->]; done|].
  intros ([= ->] & [= ->] & [= ->] & [= ->]). done.
Qed.

(** X6.  The bounding box of a line or a polygon with at least one point is
    the smallest box around its points: every point lies inside, and each
    of the four bounds is the coordinate of some point.  [get_bbox] of an
    empty path raises ([min] of an empty list) and returns no box. *)
Theorem Segment_get_bbox_tight (self : Segment.t) (poly : SegmentPoly.t) :
  (Segment.path self <> [] ->
   exists bb : BBox,
     Segment_get_bbox self = Some bb /\
     (forall p, In p (Segment.path self) ->
        xmin bb <= util.x p <= xmax bb /\ ymin bb <= util.y p <= ymax bb) /\
     (exists p, In p (Segment.path self) /\ util.x p = xmin bb) /\
     (exists p, In p (Segment.path self) /\ util.x p = xmax bb) /\
     (exists p, In p (Segment.path self) /\ util.y p = ymin bb) /\
     (exists p, In p (Segment.path self) /\ util.y p = ymax bb)) /\
  (Segment.path self = [] -> Segment_get_bbox self = None) /\
  (SegmentPoly.verts poly = Segment.path self ->
   SegmentPoly_get_bbox poly = Segment_get_bbox self).
Proof.
  unfold Segment_get_bbox, SegmentPoly_get_bbox.
  split; [|split; [by intros ->|by intros ->]].
  set (pts := Segment.path self). intros Hne.
  destruct (min_of_is_Some (List.map util.x pts)) as (x0 & Hx0).
  { by destruct pts. }
  destruct (min_of_is_Some (List.map util.y pts)) as (y0 & Hy0).
  { by destruct pts. }
  destruct (max_of_is_Some (List.map util.x pts)) as (x1 & Hx1).
  { by destruct pts. }
  destruct (max_of_is_Some (List.map util.y pts)) as (y1 & Hy1).
  { by destruct pts. }
  exists (mkBBox x0 y0 x1 y1). split; [by apply points_bbox_Some|].
  apply min_of_Some in Hx0 as [Hx0 Hx0']. apply min_of_Some in Hy0 as [Hy0 Hy0'].
  apply max_of_Some in Hx1 as [Hx1 Hx1']. apply max_of_Some in Hy1 as [Hy1 Hy1'].
  cbn [xmin ymin xmax ymax]. split.
  - intros p Hp. repeat split.
    + apply Hx0'. by apply in_map.
    + apply Hx1'. by apply in_map.
    + apply Hy0'. by apply in_map.
    + apply Hy1'. by apply in_map.
  - repeat split.
    + apply in_map_iff in Hx0 as (p & Hp & Hin). by exists p.
    + apply in_map_iff in Hx1 as (p & Hp & Hin). by exists p.
    + apply in_map_iff in Hy0 as (p & Hp & Hin). by exists p.
    + apply in_map_iff in Hy1 as (p & Hp & Hin). by exists p.
Qed.

Lemma min_of_map_decreasing (g : R -> R) (l : list R) (m : R) :
  (forall a b, a <= b -> g b <= g a) ->
  max_of l = Some m -> min_of (List.map g l) = Some (g m).
Proof.
  intros Hg Hm. apply max_of_Some in Hm as [Hin Hle].
  apply min_of_least; [by apply in_map|].
  intros y Hy. apply in_map_iff in Hy as (x & <- & Hx). by apply Hg, Hle.
Qed.

Lemma max_of_map_decreasing (g : R -> R) (l : list R) (m : R) :
  (forall a b, a <= b -> g b <= g a) ->
  min_of l = Some m -> max_of (List.map g l) = Some (g m).
Proof.
  intros Hg Hm. apply min_of_Some in Hm as [Hin Hle].
  apply max_of_greatest; [by apply in_map|].
  intros y Hy. apply in_map_iff in Hy as (x & <- & Hx). by apply Hg, Hle.
Qed.

Lemma min_of_rev (l : list R) : min_of (rev l) = min_of l.
Proof.
  destruct (min_of l) as [m|] eqn:Hm.
  - apply min_of_Some in Hm as [Hin Hle]. apply min_of_least.
    + by apply in_rev in Hin.
    + intros x Hx. apply Hle. by apply in_rev.
  - destruct l; [done|discriminate].
Qed.

Lemma max_of_rev (l : list R) : max_of (rev l) = max_of l.
Proof.
  destruct (max_of l) as [m|] eqn:Hm.
  - apply max_of_Some in Hm as [Hin Hle]. apply max_of_greatest.
    + by apply in_rev in Hin.
    + intros x Hx. apply Hle. by apply in_rev.
  - destruct l; [done|discriminate].
Qed.

Lemma points_bbox_mirrorx (pts : list Point) (centerx : R) (bb : BBox) :
  points_bbox pts = Some bb ->
  points_bbox (List.map (fun p => util.mirrorx p centerx) (rev pts)) =
    Some (mkBBox (- (xmax bb - centerx) + centerx) (ymin bb)
            (- (xmin bb - centerx) + centerx) (ymax bb)).
Proof.
  intros H. apply points_bbox_Some in H as (Hx0 & Hy0 & Hx1 & Hy1).
  apply points_bbox_Some. cbn [xmin ymin xmax ymax].
  assert (List.map util.x
            (List.map (fun p => util.mirrorx p centerx) (rev pts)) =
          List.map (fun x => - (x - centerx) + centerx)
            (rev (List.map util.x pts))) as ->.
  { rewrite <- List.map_rev, !List.map_map. reflexivity. }
  assert (List.map util.y
            (List.map (fun p => util.mirrorx p centerx) (rev pts)) =
          rev (List.map util.y pts)) as ->.
  { rewrite <- List.map_rev, !List.map_map. reflexivity. }
  assert (forall a b, a <= b -> - (b - centerx) + centerx
                                <= - (a - centerx) + centerx) as Hdec
    by (intros; lra).
  repeat split.
  - apply (min_of_map_decreasing _ _ _ Hdec). by rewrite max_of_rev.
  - by rewrite min_of_rev.
  - apply (max_of_map_decreasing _ _ _ Hdec). by rewrite min_of_rev.
  - by rewrite max_of_rev.
Qed.

Lemma points_bbox_flip (pts : list Point) (bb : BBox) :
  points_bbox pts = Some bb ->
  points_bbox (List.map util.flip pts) =
    Some (mkBBox (xmin bb) (- ymax bb) (xmax bb) (- ymin bb)).
Proof.
  intros H. apply points_bbox_Some in H as (Hx0 & Hy0 & Hx1 & Hy1).
  apply points_bbox_Some. cbn [xmin ymin xmax ymax].
  assert (List.map util.x (List.map util.flip pts) = List.map util.x pts)
    as -> by (rewrite !List.map_map; reflexivity).
  assert (List.map util.y (List.map util.flip pts) =
          List.map Ropp (List.map util.y pts))
    as -> by (rewrite !List.map_map; reflexivity).
  assert (forall a b, a <= b -> - b <= - a) as Hdec by (intros; lra).
  repeat split; try done.
  - by apply (min_of_map_decreasing _ _ _ Hdec).
  - by apply (max_of_map_decreasing _ _ _ Hdec).
Qed.

(** X7.  Mirroring a line about [centerx] mirrors its bounding box (the
    mirrored right edge becomes the left edge), flipping it negates and
    swaps the vertical bounds; the box of a circle follows its mirrored or
    flipped centre in the same way. *)
Theorem get_bbox_doreverse_doflip (self : Segment.t) (centerx : R)
    (bb : BBox) (c : SegmentCircle.t) :
  Segment_get_bbox self = Some bb ->
  Segment_get_bbox (Segment.doreverse self centerx) =
    Some (mkBBox (- (xmax bb - centerx) + centerx) (ymin bb)
            (- (xmin bb - centerx) + centerx) (ymax bb)) /\
  Segment_get_bbox (Segment.doflip self) =
    Some (mkBBox (xmin bb) (- ymax bb) (xmax bb) (- ymin bb)) /\
  (let cb := SegmentCircle_get_bbox c in
   SegmentCircle_get_bbox (SegmentCircle.doreverse c centerx) =
     mkBBox (- (xmax cb - centerx) + centerx) (ymin cb)
       (- (xmin cb - centerx) + centerx) (ymax cb) /\
   SegmentCircle_get_bbox (SegmentCircle.doflip c) =
     mkBBox (xmin cb) (- ymax cb) (xmax cb) (- ymin cb)).
Proof.
  unfold Segment_get_bbox. intros H. split; [|split].
  - by apply points_bbox_mirrorx.
  - by apply points_bbox_flip.
  - cbv zeta. unfold SegmentCircle_get_bbox. cbn. split; f_equal; ring.
Qed.

Lemma red_line_bbox : Segment_get_bbox red_line = Some (mkBBox 0 0 1 0).
Proof.
  apply points_bbox_Some. cbn.
  unfold Rmin, Rmax.
  destruct (Rle_dec 0 1); [|lra]. by destruct (Rle_dec 0 0).
Defined.

Lemma get_bbox_doreverse_doflip_witness :
  Segment_get_bbox (Segment.doreverse red_line 2) =
    Some (mkBBox (- (1 - 2) + 2) 0 (- (0 - 2) + 2) 0) /\
  Segment_get_bbox (Segment.doflip red_line) =
    Some (mkBBox 0 (- 0) 1 (- 0)) /\
  (let cb := SegmentCircle_get_bbox dot in
   SegmentCircle_get_bbox (SegmentCircle.doreverse dot 2) =
     mkBBox (- (xmax cb - 2) + 2) (ymin cb) (- (xmin cb - 2) + 2) (ymax cb) /\
   SegmentCircle_get_bbox (SegmentCircle.doflip dot) =
     mkBBox (xmin cb) (- ymax cb) (xmax cb) (- ymin cb)).
Proof.
  exact (get_bbox_doreverse_doflip red_line 2 (mkBBox 0 0 1 0) dot
           red_line_bbox).
Defined.

(** X8.  The bounding box of a circle of radius r >= 0 holds every point of
    the circle and has its bounds in order; with a negative radius the
    bounds come out swapped. *)
Theorem SegmentCircle_get_bbox_contains (c : SegmentCircle.t) (t : R) :
  let bb := SegmentCircle_get_bbox c in
  let px := util.x (SegmentCircle.center c) + SegmentCircle.radius c * cos t in
  let py := util.y (SegmentCircle.center c) + SegmentCircle.radius c * sin t in
  (0 <= SegmentCircle.radius c ->
     xmin bb <= px <= xmax bb /\ ymin bb <= py <= ymax bb /\
     xmin bb <= xmax bb /\ ymin bb <= ymax bb) /\
  (SegmentCircle.radius c < 0 ->
     xmax bb < xmin bb /\ ymax bb < ymin bb).
Proof.
  cbv zeta. unfold SegmentCircle_get_bbox. cbn [xmin ymin xmax ymax].
  pose proof (COS_bound t) as [Hc0 Hc1].
  pose proof (SIN_bound t) as [Hs0 Hs1].
  split; intros Hr; repeat split; nra.
Qed.

(** X9.  The box of a placed circle is too small once the zoom exceeds 1:
    [xform] keeps the radius, so the box of the transformed circle reaches
    the radius from the new centre, while [draw] draws around the same
    centre with the radius times the zoom. *)
Theorem SegmentCircle_placed_bbox_too_small (self : SegmentCircle.t)
    (T : Transform.t) (style : gmap string value) :
  unbound ["self"; "transform"; "center"; "radius"] style ->
  unbound ["self"; "fig"; "transform"] style ->
  1 < Transform.zoom T ->
  0 < SegmentCircle.radius self ->
  exists (c' : SegmentCircle.t) (center : Point) (radius : R)
         (color fill lw ls zorder : value),
    SegmentCircle.xform self T style = Ok c' /\
    SegmentCircle.draw self T style =
      Ok (Figure.circle center radius color fill lw ls zorder) /\
    center = SegmentCircle.center c' /\
    xmax (SegmentCircle_get_bbox c') - xmin (SegmentCircle_get_bbox c') =
      2 * SegmentCircle.radius self /\
    xmax (SegmentCircle_get_bbox c') < util.x center + radius.
Proof.
  intros Hx Hd Hz Hr. unfold SegmentCircle.draw.
  rewrite call_unbound by exact Hd. cbv zeta.
  rewrite (SegmentCircle_xform_Ok self T style Hx).
  do 8 eexists. split; [reflexivity|]. split; [reflexivity|].
  unfold SegmentCircle_get_bbox.
  cbn [SegmentCircle.__init__ SegmentCircle.center SegmentCircle.radius
       xmin xmax].
  split; [reflexivity|]. split; [ring|]. nra.
Qed.

Lemma SegmentCircle_placed_bbox_too_small_witness :
  exists (c' : SegmentCircle.t) (center : Point) (radius : R)
         (color fill lw ls zorder : value),
    SegmentCircle.xform dot doubling ∅ = Ok c' /\
    SegmentCircle.draw dot doubling ∅ =
      Ok (Figure.circle center radius color fill lw ls zorder) /\
    center = SegmentCircle.center c' /\
    xmax (SegmentCircle_get_bbox c') - xmin (SegmentCircle_get_bbox c') =
      2 * SegmentCircle.radius dot /\
    xmax (SegmentCircle_get_bbox c') < util.x center + radius.
Proof.
  apply (SegmentCircle_placed_bbox_too_small dot doubling ∅).
  - repeat constructor.
  - repeat constructor.
  - cbn. lra.
  - cbn. lra.
Defined.

(** ** The transform as a similarity *)

Lemma transform_difference (T : Transform.t) (p q : Point) (ref : value) :
  util.sub (Transform.transform T q ref) (Transform.transform T p ref) =
  util.rotate (util.mul (util.sub q p) (Transform.zoom T))
    (Transform.theta T).
Proof.
  unfold Transform.transform. cbv zeta.
  set (l := default (Transform.localshift T) _).
  unfold util.sub, util.add, util.rotate, util.mul. cbn [util.x util.y].
  f_equal; ring.
Qed.

(** X11.  [transform] is a similarity of ratio [zoom]: the squared distance
    of two points transformed with the same reference is [zoom] squared
    times their squared distance.  With a zoom of 0 every point lands on
    the global shift. *)
Theorem transform_similarity (T : Transform.t) (p q : Point) (ref : value) :
  let p' := Transform.transform T p ref in
  let q' := Transform.transform T q ref in
  (util.x q' - util.x p') * (util.x q' - util.x p')
    + (util.y q' - util.y p') * (util.y q' - util.y p') =
  Transform.zoom T * Transform.zoom T *
    ((util.x q - util.x p) * (util.x q - util.x p)
     + (util.y q - util.y p) * (util.y q - util.y p)) /\
  (Transform.zoom T = 0 -> p' = Transform.shift T).
Proof.
  cbv zeta.
  pose proof (f_equal util.x (transform_difference T p q ref)) as Hdx.
  pose proof (f_equal util.y (transform_difference T p q ref)) as Hdy.
  cbn [util.sub util.rotate util.mul util.x util.y] in Hdx, Hdy.
  set (c := cos (util.radians (Transform.theta T))) in *.
  set (s := sin (util.radians (Transform.theta T))) in *.
  assert (s * s + c * c = 1) as Hsc.
  { pose proof (sin2_cos2 (util.radians (Transform.theta T))) as H.
    unfold Rsqr in H. exact H. }
  assert ((util.x (Transform.transform T q ref)
             - util.x (Transform.transform T p ref))
          * (util.x (Transform.transform T q ref)
             - util.x (Transform.transform T p ref))
          + (util.y (Transform.transform T q ref)
             - util.y (Transform.transform T p ref))
          * (util.y (Transform.transform T q ref)
             - util.y (Transform.transform T p ref)) =
          Transform.zoom T * Transform.zoom T *
            ((util.x q - util.x p) * (util.x q - util.x p)
             + (util.y q - util.y p) * (util.y q - util.y p))) as Hdist.
  { rewrite Hdx, Hdy.
    transitivity
      ((s * s + c * c) *
         (Transform.zoom T * Transform.zoom T *
            ((util.x q - util.x p) * (util.x q - util.x p)
             + (util.y q - util.y p) * (util.y q - util.y p)))); [ring|].
    rewrite Hsc. ring. }
  split; [exact Hdist|].
  intros Hz. unfold Transform.transform. cbv zeta.
  set (l := default (Transform.localshift T) _).
  destruct (Transform.shift T) as [gx gy].
  unfold util.add, util.rotate, util.mul. cbn [util.x util.y].
  rewrite Hz. f_equal; ring.
Qed.

(** X12.  The displacement [draw] hands to [fig.arrow] is the vector from
    tail to head, scaled by the zoom and rotated by theta: neither shift of
    the transform nor the arrow's reference tag enters it. *)
Theorem SegmentArrow_draw_displacement (self : SegmentArrow.t)
    (T : Transform.t) (style : gmap string value) :
  unbound ["self"; "fig"; "transform"] style ->
  exists k : Figure.call,
    SegmentArrow.draw self T style = Ok k /\
    Figure.displacement_of k =
      let v :=
        util.rotate
          (util.mul
             (util.sub (SegmentArrow.head self) (SegmentArrow.tail self))
             (Transform.zoom T))
          (Transform.theta T) in
      Some (util.x v, util.y v).
Proof.
  intros H. unfold SegmentArrow.draw. rewrite call_unbound by exact H.
  cbv zeta. eexists. split; [reflexivity|].
  cbn [Figure.displacement_of].
  pose proof (transform_difference T (SegmentArrow.tail self)
                (SegmentArrow.head self) (SegmentArrow.endref self)) as Hd.
  rewrite <- Hd. reflexivity.
Qed.

Lemma SegmentArrow_draw_displacement_witness :
  exists k : Figure.call,
    SegmentArrow.draw flat_arrow doubling ∅ = Ok k /\
    Figure.displacement_of k =
      let v :=
        util.rotate
          (util.mul
             (util.sub (SegmentArrow.head flat_arrow)
                (SegmentArrow.tail flat_arrow))
             (Transform.zoom doubling))
          (Transform.theta doubling) in
      Some (util.x v, util.y v).
Proof.
  apply (SegmentArrow_draw_displacement flat_arrow doubling ∅).
  repeat constructor.
Defined.

(** ** Placing a segment of any class *)

Lemma SegmentText_xform_Ok (self : SegmentText.t) (T : Transform.t)
    (style : gmap string value) :
  unbound ["self"; "transform"; "pos"; "label"] style ->
  SegmentText.xform self T style =
    Ok (SegmentText.__init__
          (Transform.transform T (SegmentText.xy self) VNone)
          (SegmentText.text self)
          (update (SegmentText.params self) style)).
Proof.
  intros H. unfold SegmentText.xform, SegmentText.new.
  rewrite call_unbound by unbound_among H.
  cbv zeta. rewrite call_unbound; [done|].
  apply unbound_update.
  - unfold SegmentText.params. unbound_literal.
  - unbound_among H.
Qed.

Lemma SegmentPoly_xform_Ok (self : SegmentPoly.t) (T : Transform.t)
    (style : gmap string value) :
  unbound ["self"; "transform"; "verts"] style ->
  SegmentPoly.xform self T style =
    Ok (SegmentPoly.__init__
          (Transform.transform_array T (SegmentPoly.verts self))
          (update (SegmentPoly.params self) style)).
Proof.
  intros H. unfold SegmentPoly.xform, SegmentPoly.new.
  rewrite call_unbound by unbound_among H.
  cbv zeta. rewrite call_unbound; [done|].
  apply unbound_update.
  - unfold SegmentPoly.params. unbound_literal.
  - unbound_among H.
Qed.

Lemma call_bound {A : Type} (names : list string) (kw : gmap string value)
    (body : result A) :
  ~ unbound names kw -> call names kw body = Raise TypeError.
Proof. intros H. unfold call. by destruct (decide (unbound names kw)). Qed.

Lemma unbound_app (l1 l2 : list string) (kw : gmap string value) :
  unbound (l1 ++ l2) kw <-> unbound l1 kw /\ unbound l2 kw.
Proof. unfold unbound. apply Forall_app. Qed.

Lemma unbound_update_inv (names : list string) (d e : gmap string value) :
  unbound names (update d e) -> unbound names e.
Proof.
  unfold unbound, update. rewrite !Forall_forall. intros H k Hk.
  specialize (H k Hk). by apply lookup_union_None in H as [He _].
Qed.

(** A call whose body is a second call, through an updated dictionary:
    it returns the body's value when the style leaves all the names of both
    calls unbound and raises [TypeError] otherwise. *)
Lemma nested_call {A : Type} (outer inner : list string)
    (params style : gmap string value) (a : A) :
  unbound ("self" :: inner) params ->
  call ("self" :: outer) style
    (call ("self" :: inner) (update params style) (Ok a)) =
  if decide (unbound (("self" :: outer) ++ inner) style)
  then Ok a else Raise TypeError.
Proof.
  intros Hparams.
  destruct (decide (unbound (("self" :: outer) ++ inner) style)) as [Hu|Hu].
  - apply unbound_app in Hu as [Ho Hi].
    rewrite call_unbound by exact Ho.
    rewrite call_unbound; [done|]. apply unbound_update; [done|].
    constructor; [|done]. by inversion Ho.
  - destruct (decide (unbound ("self" :: outer) style)) as [Ho|Ho].
    + rewrite call_unbound by exact Ho. apply call_bound.
      intros Hb. apply unbound_update_inv in Hb. apply Hu.
      apply unbound_app. split; [done|]. by inversion Hb.
    + by apply call_bound.
Qed.

Lemma xform_returns_iff_unbound_aux (P : segment) (T : Transform.t)
    (style : gmap string value) :
  (unbound (xform_bound P) style ->
     exists P' : segment, xform P T style = Ok P') /\
  (~ unbound (xform_bound P) style -> xform P T style = Raise TypeError).
Proof.
  destruct P as [s|s|s|s|s|s]; cbn [xform xform_bound].
  - unfold Segment.xform, Segment.new. cbv zeta.
    rewrite nested_call by (unfold Segment.params; unbound_literal).
    cbn [app]. destruct (decide _); split; intros; by eauto.
  - unfold SegmentText.xform, SegmentText.new. cbv zeta.
    rewrite nested_call by (unfold SegmentText.params; unbound_literal).
    cbn [app]. destruct (decide _); split; intros; by eauto.
  - unfold SegmentPoly.xform, SegmentPoly.new. cbv zeta.
    rewrite nested_call by (unfold SegmentPoly.params; unbound_literal).
    cbn [app]. destruct (decide _); split; intros; by eauto.
  - unfold SegmentCircle.xform, SegmentCircle.new. cbv zeta.
    rewrite nested_call by (unfold SegmentCircle.params; unbound_literal).
    cbn [app]. destruct (decide _); split; intros; by eauto.
  - unfold SegmentArrow.xform, SegmentArrow.new. cbv zeta.
    rewrite nested_call by (unfold SegmentArrow.params; unbound_literal).
    cbn [app]. destruct (decide _); split; intros; by eauto.
  - unfold SegmentArc.xform, SegmentArc.new. cbv zeta.
    rewrite nested_call by (unfold SegmentArc.params; unbound_literal).
    cbn [app]. destruct (decide _); split; intros; by eauto.
Qed.

(** X15.  [xform] of a segment of any class returns exactly when the style
    names none of the parameters that the [xform] call and the constructor
    call inside it bind; it raises [TypeError] otherwise, and nothing
    else. *)
Theorem xform_returns_iff_unbound (P : segment) (T : Transform.t)
    (style : gmap string value) :
  (unbound (xform_bound P) style ->
     exists P' : segment, xform P T style = Ok P') /\
  (~ unbound (xform_bound P) style -> xform P T style = Raise TypeError).
Proof. apply xform_returns_iff_unbound_aux. Qed.

Lemma last_map {A B : Type} (f : A -> B) (l : list A) :
  last (List.map f l) = f <$> last l.
Proof.
  induction l as [|a [|b l] IH]; [done|done|].
  change (last (List.map f (b :: l)) = f <$> last (b :: l)). exact IH.
Qed.

(** X10.  The end point of a placed segment is the placed end point of the
    segment: [xform] followed by [end] gives what [transform] makes of the
    segment's own [end], with the reference the class uses (the flip
    reference for a circle or an arrow, none for the others).  A path
    without points has no end before or after. *)
Theorem segment_end_xform (P P' : segment) (T : Transform.t)
    (style : gmap string value) :
  xform P T style = Ok P' ->
  segment_end P' =
    (fun q => Transform.transform T q (xform_ref P)) <$> segment_end P.
Proof.
  destruct (decide (unbound (xform_bound P) style)) as [Hu|Hu].
  2:{ rewrite (proj2 (xform_returns_iff_unbound_aux P T style) Hu).
      discriminate. }
  destruct P as [s|s|s|s|s|s]; cbn [xform xform_bound xform_ref] in *.
  - rewrite (Segment_xform_Ok s T style Hu). intros [= <-].
    cbn [segment_end]. unfold Segment_end.
    cbn [Segment.__init__ Segment.path].
    apply (last_map (fun q => Transform.transform T q VNone)).
  - rewrite (SegmentText_xform_Ok s T style Hu). by intros [= <-].
  - rewrite (SegmentPoly_xform_Ok s T style Hu). intros [= <-].
    cbn [segment_end]. unfold SegmentPoly_end.
    cbn [SegmentPoly.__init__ SegmentPoly.verts].
    apply (last_map (fun q => Transform.transform T q VNone)).
  - rewrite (SegmentCircle_xform_Ok s T style Hu). by intros [= <-].
  - rewrite (SegmentArrow_xform_Ok s T style Hu). by intros [= <-].
  - rewrite (SegmentArc_xform_Ok s T style Hu). by intros [= <-].
Qed.

Lemma segment_end_xform_witness :
  segment_end
    (Line (Segment.__init__
             (Transform.transform_array doubling (Segment.path red_line))
             (update (Segment.params red_line) ∅))) =
  (fun q => Transform.transform doubling q (xform_ref (Line red_line)))
    <$> segment_end (Line red_line).
Proof.
  apply (segment_end_xform (Line red_line) _ doubling ∅).
  cbn [xform]. rewrite Segment_xform_Ok; [reflexivity|repeat constructor].
Defined.

(** X13.  [xform] does not carry a polygon's [closed] flag over: the
    placed polygon's flag is the style's, [None] when the style has none,
    whatever the flag of the original; the corner radius and the other
    attributes it does carry, and the vertices are transformed in order. *)
Theorem SegmentPoly_xform_drops_closed (self : SegmentPoly.t)
    (T : Transform.t) (style : gmap string value) :
  unbound ["self"; "transform"; "verts"] style ->
  exists p' : SegmentPoly.t,
    SegmentPoly.xform self T style = Ok p' /\
    SegmentPoly.closed p' = get style "closed" VNone /\
    SegmentPoly.cornerradius p' =
      default (SegmentPoly.cornerradius self) (style !! "cornerradius") /\
    SegmentPoly.fill p' =
      default (SegmentPoly.fill self) (style !! "fill") /\
    SegmentPoly.verts p' =
      Transform.transform_array T (SegmentPoly.verts self).
Proof.
  intros H. eexists. split; [by apply SegmentPoly_xform_Ok|].
  cbn [SegmentPoly.__init__ SegmentPoly.closed SegmentPoly.cornerradius
       SegmentPoly.fill SegmentPoly.verts].
  split; [|split; [|split]].
  - unfold get at 1, update. rewrite lookup_union_l; [reflexivity|].
    unfold SegmentPoly.params. by vm_compute.
  - unfold get, update.
    destruct (style !! "cornerradius") as [v|] eqn:Hs.
    + by rewrite (lookup_union_Some_l _ _ _ _ Hs).
    + rewrite lookup_union_r by done.
      unfold SegmentPoly.params. by vm_compute.
  - apply get_params_update. unfold SegmentPoly.params. by vm_compute.
  - reflexivity.
Qed.

Lemma SegmentPoly_xform_drops_closed_witness :
  SegmentPoly.closed open_poly = VBool false /\
  exists p' : SegmentPoly.t,
    SegmentPoly.xform open_poly doubling ∅ = Ok p' /\
    SegmentPoly.closed p' = get ∅ "closed" VNone /\
    SegmentPoly.cornerradius p' =
      default (SegmentPoly.cornerradius open_poly)
        ((∅ : gmap string value) !! "cornerradius") /\
    SegmentPoly.fill p' =
      default (SegmentPoly.fill open_poly)
        ((∅ : gmap string value) !! "fill") /\
    SegmentPoly.verts p' =
      Transform.transform_array doubling (SegmentPoly.verts open_poly).
Proof.
  split; [reflexivity|].
  apply (SegmentPoly_xform_drops_closed open_poly doubling ∅).
  repeat constructor.
Defined.

(** X14.  The constructor of a line drops the keywords it does not know:
    adding a keyword other than the seven attributes (and other than the
    constructor's own parameters) to the keyword arguments changes neither
    the outcome of the call nor the segment built. *)
Theorem Segment_new_ignores_unknown_keyword (path : list Point)
    (kwargs : gmap string value) (k : string) (v : value) :
  k ∉ ["self"; "path"; "zorder"; "color"; "fill"; "lw"; "ls"; "capstyle";
       "joinstyle"] ->
  Segment.new path (<[k := v]> kwargs) = Segment.new path kwargs.
Proof.
  intros Hk. rewrite !not_elem_of_cons in Hk.
  destruct Hk as (? & ? & ? & ? & ? & ? & ? & ? & ? & _).
  unfold Segment.new, call.
  assert (unbound ["self"; "path"] (<[k := v]> kwargs) <->
          unbound ["self"; "path"] kwargs) as Hiff.
  { unfold unbound. rewrite !Forall_cons, !Forall_nil.
    rewrite !lookup_insert_ne by done. reflexivity. }
  assert (Segment.__init__ path (<[k := v]> kwargs) =
          Segment.__init__ path kwargs) as ->.
  { unfold Segment.__init__, get. by rewrite !lookup_insert_ne by done. }
  destruct (decide (unbound _ (<[k := v]> kwargs)));
    destruct (decide (unbound _ kwargs)); tauto.
Qed.

Lemma Segment_new_ignores_unknown_keyword_witness :
  Segment.new [util.mkPoint 0 0; util.mkPoint 1 0]
    (<["arrow" := VStr "->"]> ∅) =
  Segment.new [util.mkPoint 0 0; util.mkPoint 1 0] ∅.
Proof.
  apply (Segment_new_ignores_unknown_keyword
           [util.mkPoint 0 0; util.mkPoint 1 0] ∅ "arrow" (VStr "->")).
  rewrite !not_elem_of_cons. repeat split; try discriminate.
  apply not_elem_of_nil.
Defined.

(** ** Mirroring against flipping *)

Lemma flip_mirror_path (l : list Point) (centerx : R) :
  List.map util.flip (List.map (fun p => util.mirrorx p centerx) (rev l)) =
  List.map (fun p => util.mirrorx p centerx) (rev (List.map util.flip l)).
Proof. by rewrite <- List.map_rev, !List.map_map. Qed.

(** X16.  For lines, texts, polygons, circles and arrows, mirroring and
    flipping commute.  For an arc they agree on the centre and the arrow
    tag, but flipping first leaves both angles 360 degrees above what
    mirroring first gives. *)
Theorem doreverse_doflip_commute (P : segment) (centerx : R) :
  match P with
  | Arc a =>
      let rf := SegmentArc.doflip (SegmentArc.doreverse a centerx) in
      let fr := SegmentArc.doreverse (SegmentArc.doflip a) centerx in
      SegmentArc.center fr = SegmentArc.center rf /\
      SegmentArc.arrow fr = SegmentArc.arrow rf /\
      SegmentArc.theta1 fr = SegmentArc.theta1 rf + 360 /\
      SegmentArc.theta2 fr = SegmentArc.theta2 rf + 360
  | _ => doflip (doreverse P centerx) = doreverse (doflip P) centerx
  end.
Proof.
  destruct P as [s|s|s|s|s|s]; cbn [doflip doreverse].
  - unfold Segment.doflip, Segment.doreverse. cbn. f_equal. f_equal.
    apply flip_mirror_path.
  - reflexivity.
  - unfold SegmentPoly.doflip, SegmentPoly.doreverse. cbn. f_equal. f_equal.
    apply flip_mirror_path.
  - reflexivity.
  - reflexivity.
  - cbv zeta. cbn. repeat split; ring.
Qed.

(** X17.  Placing an arc twice multiplies its width and height by both
    zoom factors and adds both rotations to its angle; the two sweep angles
    stay as they were, and the centre goes through both transforms. *)
Theorem SegmentArc_xform_twice (self : SegmentArc.t) (T1 T2 : Transform.t)
    (style1 style2 : gmap string value) :
  unbound ["self"; "transform"; "center"; "width"; "height"; "angle";
           "theta1"; "theta2"] style1 ->
  unbound ["self"; "transform"; "center"; "width"; "height"; "angle";
           "theta1"; "theta2"] style2 ->
  exists a1 a2 : SegmentArc.t,
    SegmentArc.xform self T1 style1 = Ok a1 /\
    SegmentArc.xform a1 T2 style2 = Ok a2 /\
    SegmentArc.width a2 =
      SegmentArc.width self * Transform.zoom T1 * Transform.zoom T2 /\
    SegmentArc.height a2 =
      SegmentArc.height self * Transform.zoom T1 * Transform.zoom T2 /\
    SegmentArc.angle a2 =
      SegmentArc.angle self + Transform.theta T1 + Transform.theta T2 /\
    SegmentArc.theta1 a2 = SegmentArc.theta1 self /\
    SegmentArc.theta2 a2 = SegmentArc.theta2 self /\
    SegmentArc.center a2 =
      Transform.transform T2
        (Transform.transform T1 (SegmentArc.center self) VNone) VNone.
Proof.
  intros H1 H2. eexists. eexists.
  split; [by apply SegmentArc_xform_Ok|].
  split; [by apply SegmentArc_xform_Ok|].
  cbn. done.
Qed.

Lemma SegmentArc_xform_twice_witness :
  exists a1 a2 : SegmentArc.t,
    SegmentArc.xform cw_arc doubling ∅ = Ok a1 /\
    SegmentArc.xform a1 doubling ∅ = Ok a2 /\
    SegmentArc.width a2 =
      SegmentArc.width cw_arc * Transform.zoom doubling
        * Transform.zoom doubling /\
    SegmentArc.height a2 =
      SegmentArc.height cw_arc * Transform.zoom doubling
        * Transform.zoom doubling /\
    SegmentArc.angle a2 =
      SegmentArc.angle cw_arc + Transform.theta doubling
        + Transform.theta doubling /\
    SegmentArc.theta1 a2 = SegmentArc.theta1 cw_arc /\
    SegmentArc.theta2 a2 = SegmentArc.theta2 cw_arc /\
    SegmentArc.center a2 =
      Transform.transform doubling
        (Transform.transform doubling (SegmentArc.center cw_arc) VNone)
        VNone.
Proof.
  apply (SegmentArc_xform_twice cw_arc doubling doubling ∅ ∅).
  - repeat constructor.
  - repeat constructor.
Defined.

(** ** Falsy values and head widths *)

(** X18.  [draw] tells an unset value from a set one by its truth for the
    colour and the line width, and by [None] for the fill and the z-order:
    a line width of 0 or an empty colour on the line gives way to the
    style, while a fill of [False] or a z-order of 0 on the line is handed
    to the figure whatever the style says. *)
Theorem Segment_draw_falsy_values (self : Segment.t) (T : Transform.t)
    (style : gmap string value) :
  unbound ["self"; "fig"; "transform"] style ->
  exists (xs ys : list R)
         (color fill ls lw capstyle joinstyle zorder : value),
    Segment.draw self T style =
      Ok (Figure.plot xs ys color fill ls lw capstyle joinstyle zorder) /\
    (Segment.lw self = VNum 0 -> lw = get style "lw" (VNum 2)) /\
    (Segment.color self = VStr "" ->
       color = get style "color" (VStr "black")) /\
    (Segment.fill self = VBool false -> fill = VBool false) /\
    (Segment.zorder self = VNum 0 -> zorder = VNum 0).
Proof.
  intros H. unfold Segment.draw. rewrite call_unbound by exact H.
  cbv zeta. do 9 eexists. split; [reflexivity|].
  unfold Segment.draw_color, Segment.draw_fill, if_truthy, if_not_None.
  repeat split; intros ->; cbn [truthy].
  - rewrite bool_decide_eq_false_2; [done|]. intros Hne. by apply Hne.
  - done.
  - done.
  - done.
Qed.

Lemma Segment_draw_falsy_values_witness :
  exists (xs ys : list R)
         (color fill ls lw capstyle joinstyle zorder : value),
    Segment.draw red_line identity {[ "lw" := VNum 3 ]} =
      Ok (Figure.plot xs ys color fill ls lw capstyle joinstyle zorder) /\
    (Segment.lw red_line = VNum 0 ->
       lw = get {[ "lw" := VNum 3 ]} "lw" (VNum 2)) /\
    (Segment.color red_line = VStr "" ->
       color = get {[ "lw" := VNum 3 ]} "color" (VStr "black")) /\
    (Segment.fill red_line = VBool false -> fill = VBool false) /\
    (Segment.zorder red_line = VNum 0 -> zorder = VNum 0).
Proof.
  apply (Segment_draw_falsy_values red_line identity {[ "lw" := VNum 3 ]}).
  unbound_literal.
Defined.

(** X19.  The bounding box of an arrow is padded above and below by the
    head width and never sideways.  A head width of [None] or 0 counts as
    unset and pads by 0.1; a non-negative head width gives a box that holds
    tail and head; a negative one gives a box that leaves out the higher and
    the lower of the two; a non-empty string raises [TypeError]. *)
Theorem SegmentArrow_get_bbox_headwidth (self : SegmentArrow.t) :
  let tx := util.x (SegmentArrow.tail self) in
  let ty := util.y (SegmentArrow.tail self) in
  let hx := util.x (SegmentArrow.head self) in
  let hy := util.y (SegmentArrow.head self) in
  (SegmentArrow.headwidth self = VNone \/
   SegmentArrow.headwidth self = VNum 0 ->
     SegmentArrow_get_bbox self =
       Ok (mkBBox (Rmin tx hx) (Rmin ty hy - 1 / 10)
             (Rmax tx hx) (Rmax ty hy + 1 / 10))) /\
  (forall w : R,
     SegmentArrow.headwidth self = VNum w -> w <> 0 ->
     SegmentArrow_get_bbox self =
       Ok (mkBBox (Rmin tx hx) (Rmin ty hy - w)
             (Rmax tx hx) (Rmax ty hy + w))) /\
  (forall w : R,
     SegmentArrow.headwidth self = VNum w -> 0 <= w ->
     exists bb : BBox,
       SegmentArrow_get_bbox self = Ok bb /\
       xmin bb <= tx <= xmax bb /\ ymin bb <= ty <= ymax bb /\
       xmin bb <= hx <= xmax bb /\ ymin bb <= hy <= ymax bb) /\
  (forall w : R,
     SegmentArrow.headwidth self = VNum w -> w < 0 ->
     exists bb : BBox,
       SegmentArrow_get_bbox self = Ok bb /\
       ymax bb < Rmax ty hy /\ Rmin ty hy < ymin bb) /\
  (forall s : string,
     SegmentArrow.headwidth self = VStr s -> s <> "" ->
     SegmentArrow_get_bbox self = Raise TypeError).
Proof.
  cbv zeta. unfold SegmentArrow_get_bbox, if_truthy.
  pose proof (Rmin_l (util.x (SegmentArrow.tail self))
                (util.x (SegmentArrow.head self))).
  pose proof (Rmin_r (util.x (SegmentArrow.tail self))
                (util.x (SegmentArrow.head self))).
  pose proof (Rmax_l (util.x (SegmentArrow.tail self))
                (util.x (SegmentArrow.head self))).
  pose proof (Rmax_r (util.x (SegmentArrow.tail self))
                (util.x (SegmentArrow.head self))).
  pose proof (Rmin_l (util.y (SegmentArrow.tail self))
                (util.y (SegmentArrow.head self))).
  pose proof (Rmin_r (util.y (SegmentArrow.tail self))
                (util.y (SegmentArrow.head self))).
  pose proof (Rmax_l (util.y (SegmentArrow.tail self))
                (util.y (SegmentArrow.head self))).
  pose proof (Rmax_r (util.y (SegmentArrow.tail self))
                (util.y (SegmentArrow.head self))).
  repeat apply conj.
  - intros [-> | ->]; cbn [truthy]; [reflexivity|].
    rewrite bool_decide_eq_false_2; [reflexivity|]. intros Hne. by apply Hne.
  - intros w -> Hw. cbn [truthy]. by rewrite bool_decide_eq_true_2.
  - intros w -> Hw. cbn [truthy]. destruct (decide (w = 0)) as [->|Hne].
    + rewrite bool_decide_eq_false_2 by (intros Hne; by apply Hne).
      eexists. split; [reflexivity|]. cbn. lra.
    + rewrite bool_decide_eq_true_2 by done.
      eexists. split; [reflexivity|]. cbn. lra.
  - intros w -> Hw. cbn [truthy].
    rewrite bool_decide_eq_true_2 by lra.
    eexists. split; [reflexivity|]. cbn. lra.
  - intros s -> Hs. cbn [truthy]. by rewrite bool_decide_eq_true_2.
Qed.

(** ** The extent of an arc's bounding box *)

Lemma half_axis_bound (w u v : R) :
  -1 <= u <= 1 -> -1 <= v <= 1 ->
  - (Rabs w / 2) <= w / 2 * u * v <= Rabs w / 2.
Proof.
  intros Hu Hv. assert (-1 <= u * v <= 1) as Huv by nra.
  unfold Rabs. destruct (Rcase_abs w); nra.
Qed.

Lemma sin_bound (a : R) : -1 <= sin a <= 1.
Proof. pose proof (SIN_bound a). lra. Qed.

Lemma cos_bound (a : R) : -1 <= cos a <= 1.
Proof. pose proof (COS_bound a). lra. Qed.

Lemma min_of_max_of_map_bounds (f : R -> R) (ts : list R) (lo hi m M : R) :
  (forall u, lo <= f u <= hi) ->
  min_of (List.map f ts) = Some m -> max_of (List.map f ts) = Some M ->
  lo <= m /\ m <= M /\ M <= hi.
Proof.
  intros Hf [Hm Hle]%min_of_Some [HM _]%max_of_Some.
  specialize (Hle M HM).
  apply in_map_iff in Hm as (u & <- & _).
  apply in_map_iff in HM as (v & <- & _).
  pose proof (Hf u). pose proof (Hf v). lra.
Qed.

(** X20.  For every arc [get_bbox] returns a box that is well formed (its
    lower bounds are not above its upper bounds) and that lies within half
    the sum of the absolute width and height from the centre, in both
    directions, whatever the sweep angles and the rotation. *)
Theorem SegmentArc_get_bbox_within (self : SegmentArc.t) :
  let r := (Rabs (SegmentArc.width self) + Rabs (SegmentArc.height self)) / 2 in
  exists bb : BBox,
    SegmentArc.get_bbox 2 self = Some bb /\
    util.x (SegmentArc.center self) - r <= xmin bb /\
    xmin bb <= xmax bb /\
    xmax bb <= util.x (SegmentArc.center self) + r /\
    util.y (SegmentArc.center self) - r <= ymin bb /\
    ymin bb <= ymax bb /\
    ymax bb <= util.y (SegmentArc.center self) + r.
Proof.
  cbv zeta.
  destruct (sweep_total self) as (t1 & t2 & Hsweep & _).
  assert (SegmentArc.samples 2 self = Some (util.linspace t1 t2 500))
    as Hsamples.
  { unfold SegmentArc.samples. by rewrite Hsweep. }
  pose proof (linspace_length t1 t2 500) as Hlen.
  rewrite (get_bbox_of_samples _ _ _ Hsamples). cbv zeta.
  set (ts := util.linspace t1 t2 500) in *.
  set (phi := util.radians (SegmentArc.angle self)).
  set (fx := fun u : R =>
               util.x (SegmentArc.center self)
               + SegmentArc.width self / 2 * cos u * cos phi
               - SegmentArc.height self / 2 * sin u * sin phi).
  set (fy := fun u : R =>
               util.y (SegmentArc.center self)
               + SegmentArc.width self / 2 * cos u * sin phi
               + SegmentArc.height self / 2 * sin u * cos phi).
  assert (forall f : R -> R, List.map f ts <> []) as Hne.
  { intros f Hnil. apply (f_equal (@length R)) in Hnil.
    rewrite List.length_map, Hlen in Hnil. discriminate. }
  destruct (min_of_is_Some (List.map fx ts) (Hne fx)) as (x0 & Hx0).
  destruct (max_of_is_Some (List.map fx ts) (Hne fx)) as (x1 & Hx1).
  destruct (min_of_is_Some (List.map fy ts) (Hne fy)) as (y0 & Hy0).
  destruct (max_of_is_Some (List.map fy ts) (Hne fy)) as (y1 & Hy1).
  rewrite Hx0, Hx1, Hy0, Hy1.
  exists (mkBBox x0 y0 x1 y1). split; [reflexivity|]. cbn [xmin ymin xmax ymax].
  set (r := (Rabs (SegmentArc.width self)
             + Rabs (SegmentArc.height self)) / 2).
  assert (forall u,
            util.x (SegmentArc.center self) - r <= fx u
            <= util.x (SegmentArc.center self) + r) as Hfx.
  { intros u. unfold fx, r.
    pose proof (half_axis_bound (SegmentArc.width self) (cos u) (cos phi)
                  (cos_bound u) (cos_bound phi)).
    pose proof (half_axis_bound (SegmentArc.height self) (sin u) (sin phi)
                  (sin_bound u) (sin_bound phi)).
    lra. }
  assert (forall u,
            util.y (SegmentArc.center self) - r <= fy u
            <= util.y (SegmentArc.center self) + r) as Hfy.
  { intros u. unfold fy, r.
    pose proof (half_axis_bound (SegmentArc.width self) (cos u) (sin phi)
                  (cos_bound u) (sin_bound phi)).
    pose proof (half_axis_bound (SegmentArc.height self) (sin u) (cos phi)
                  (sin_bound u) (cos_bound phi)).
    lra. }
  pose proof (min_of_max_of_map_bounds fx ts _ _ x0 x1 Hfx Hx0 Hx1).
  pose proof (min_of_max_of_map_bounds fy ts _ _ y0 y1 Hfy Hy0 Hy1).
  lra.
Qed.

(** ** Placing a segment and then drawing it *)

Lemma update_empty (d : gmap string value) : update d ∅ = d.
Proof. unfold update. apply (left_id_L ∅ (∪)). Qed.

Lemma Segment_xform_no_style (self : Segment.t) (T : Transform.t) :
  Segment.xform self T ∅ =
    Ok (Segment.mk (Transform.transform_array T (Segment.path self))
          (Segment.zorder self) (Segment.color self) (Segment.fill self)
          (Segment.lw self) (Segment.ls self) (Segment.capstyle self)
          (Segment.joinstyle self)).
Proof.
  rewrite Segment_xform_Ok by repeat constructor.
  rewrite update_empty. reflexivity.
Qed.

Lemma SegmentArrow_xform_no_style (self : SegmentArrow.t) (T : Transform.t) :
  SegmentArrow.xform self T ∅ =
    Ok (SegmentArrow.mk
          (Transform.transform T (SegmentArrow.tail self)
             (SegmentArrow.endref self))
          (Transform.transform T (SegmentArrow.head self)
             (SegmentArrow.endref self))
          (SegmentArrow.zorder self) (SegmentArrow.headwidth self)
          (SegmentArrow.headlength self) (SegmentArrow.color self)
          (SegmentArrow.lw self) (SegmentArrow.endref self)).
Proof.
  rewrite SegmentArrow_xform_Ok by repeat constructor.
  rewrite update_empty. reflexivity.
Qed.

Lemma SegmentCircle_xform_no_style (self : SegmentCircle.t)
    (T : Transform.t) :
  SegmentCircle.xform self T ∅ =
    Ok (SegmentCircle.mk
          (Transform.transform T (SegmentCircle.center self)
             (SegmentCircle.endref self))
          (SegmentCircle.radius self)
          (SegmentCircle.zorder self) (SegmentCircle.color self)
          (SegmentCircle.fill self) (SegmentCircle.lw self)
          (SegmentCircle.ls self) (SegmentCircle.endref self)).
Proof.
  rewrite SegmentCircle_xform_Ok by repeat constructor.
  rewrite update_empty. reflexivity.
Qed.

Lemma SegmentArc_xform_no_style (self : SegmentArc.t) (T : Transform.t) :
  SegmentArc.xform self T ∅ =
    Ok (SegmentArc.mk
          (Transform.transform T (SegmentArc.center self) VNone)
          (SegmentArc.width self * Transform.zoom T)
          (SegmentArc.height self * Transform.zoom T)
          (SegmentArc.theta1 self) (SegmentArc.theta2 self) VNone
          (SegmentArc.angle self + Transform.theta T)
          (SegmentArc.color self) (SegmentArc.lw self) (SegmentArc.ls self)
          (SegmentArc.zorder self)).
Proof.
  rewrite SegmentArc_xform_Ok by repeat constructor.
  rewrite update_empty. reflexivity.
Qed.

(** X21.  Placing a segment with [xform] (no style) and drawing the result
    under the identity transform issues the same figure call as drawing the
    segment under the placing transform, for every line and every arrow.
    For a circle the two calls agree exactly when zooming leaves the radius
    as it is, and for an arc exactly when it carries no arrow tag. *)
Theorem xform_then_draw (s : Segment.t) (a : SegmentArrow.t)
    (c : SegmentCircle.t) (arc : SegmentArc.t) (T : Transform.t)
    (style : gmap string value) :
  (exists s1 : Segment.t,
     Segment.xform s T ∅ = Ok s1 /\
     Segment.draw s1 identity style = Segment.draw s T style) /\
  (exists a1 : SegmentArrow.t,
     SegmentArrow.xform a T ∅ = Ok a1 /\
     SegmentArrow.draw a1 identity style = SegmentArrow.draw a T style) /\
  (exists c1 : SegmentCircle.t,
     SegmentCircle.xform c T ∅ = Ok c1 /\
     (unbound ["self"; "fig"; "transform"] style ->
      SegmentCircle.draw c1 identity style = SegmentCircle.draw c T style <->
      Transform.zoom T * SegmentCircle.radius c = SegmentCircle.radius c)) /\
  (exists arc1 : SegmentArc.t,
     SegmentArc.xform arc T ∅ = Ok arc1 /\
     (unbound ["self"; "fig"; "transform"] style ->
      SegmentArc.draw arc1 identity style = SegmentArc.draw arc T style <->
      SegmentArc.arrow arc = VNone)).
Proof.
  repeat apply conj.
  - eexists. split; [apply Segment_xform_no_style|].
    unfold Segment.draw, Segment.draw_color, Segment.draw_fill.
    cbn [Segment.path Segment.zorder Segment.color Segment.fill Segment.lw
         Segment.ls Segment.capstyle Segment.joinstyle].
    by rewrite transform_array_identity.
  - eexists. split; [apply SegmentArrow_xform_no_style|].
    unfold SegmentArrow.draw.
    cbn [SegmentArrow.tail SegmentArrow.head SegmentArrow.zorder
         SegmentArrow.headwidth SegmentArrow.headlength SegmentArrow.color
         SegmentArrow.lw SegmentArrow.endref].
    by rewrite !transform_identity.
  - eexists. split; [apply SegmentCircle_xform_no_style|].
    intros Hu. unfold SegmentCircle.draw.
    rewrite !call_unbound by exact Hu.
    cbn [SegmentCircle.center SegmentCircle.radius SegmentCircle.zorder
         SegmentCircle.color SegmentCircle.fill SegmentCircle.lw
         SegmentCircle.ls SegmentCircle.endref].
    cbv zeta. rewrite transform_identity.
    cbn [identity Transform.zoom]. split.
    + intros [= Hr]. lra.
    + intros Hr. do 2 f_equal. lra.
  - eexists. split; [apply SegmentArc_xform_no_style|].
    intros Hu. unfold SegmentArc.draw.
    rewrite !call_unbound by exact Hu.
    cbn [SegmentArc.center SegmentArc.width SegmentArc.height
         SegmentArc.theta1 SegmentArc.theta2 SegmentArc.arrow
         SegmentArc.angle SegmentArc.color SegmentArc.lw SegmentArc.ls
         SegmentArc.zorder].
    cbv zeta. rewrite transform_identity.
    cbn [identity Transform.zoom Transform.theta]. split.
    + intros [= _ _ _ Harrow]. done.
    + intros <-. f_equal. f_equal; lra.
Qed.
